(** * StacyPilot music timeline: layout, coordinate mapping, waveform analysis

    A shallow embedding of the algorithmic parts of the timeline editor:
    - [Timeline] (the Timeline component): command durations, the greedy
      row layout [organizeCommandsIntoTracks], the time/pixel mapping, the
      drag-to-edit handlers;
    - [AudioPlayer] (components/AudioPlayer.tsx): the waveform and beat
      analysis [generateAdvancedWaveform], and the scroll/auto-follow state.

    JavaScript numbers are modelled as exact rationals ([Q]); IEEE rounding,
    NaN and infinities are outside the model except where a definition says
    otherwise.  Array indices and lengths are [nat]; [Date.now()] is an
    integer number of milliseconds ([Z]). *)

From Stdlib Require Import String QArith Qminmax Qabs Qround ZArith Lia Lqa List Bool.
From Stdlib Require Import Permutation Sorted DecimalString.
From Stdlib Require DecimalPos DecimalZ.
Import ListNotations.

Local Open Scope Q_scope.

(** ** Number helpers shared by both components *)

(** [a < b] on JavaScript numbers, as a boolean. *)
Definition Qltb (a b : Q) : bool := negb (Qle_bool b a).

Definition ofNat (n : nat) : Q := inject_Z (Z.of_nat n).

(** [a[a.length - 1]]: the last element, [None] (undefined) when empty. *)
Fixpoint lastOf {A : Type} (l : list A) : option A :=
  match l with
  | [] => None
  | [x] => Some x
  | _ :: t => lastOf t
  end.

(** * The Timeline component *)
Module Timeline.

(** ** Data model (types/stacypilot) *)

Inductive LightType :=
  | HeadsA | HeadsB | BarsA | BarsB | LEDsA | LEDsB | LEDsC
  | StrobesA | StrobesB | WashesA.

Inductive CommandType :=
  | On | Off | FadeOn | FadeOff
  | Cue | Action
  | BeamMode | BeamThickness | GoboSpread
  | Tilt | Pan | MotorSpeed
  | RotateGobo | Follow | StopFollowing
  | Color | SmoothColor | AnimatedGradients
  | SetGlobalCueSetting | SetCueSetting | LoopCues
  | CueSpeed | FadeSpeed | Dimness
  | Reset | HardReset.

Scheme Equality for LightType.

(** Of the optional command parameters only [fadeSpeed] is read by the
    functions embedded here; [None] is an absent (undefined) field. *)
Record CommandParameters := {
  lightType : LightType;
  fadeSpeed : option Q
}.

Record StacyCommand := {
  id : string;
  time : Q;
  type : CommandType;
  parameters : CommandParameters
}.

(** ** getCommandDuration *)

(** [command.parameters.fadeSpeed ?? 1]: only an absent value is replaced. *)
Definition getCommandDuration (command : StacyCommand) : Q :=
  match type command with
  | FadeOn | FadeOff =>
      match fadeSpeed (parameters command) with
      | Some v => v
      | None => 1
      end
  | Color => 2
  | Cue => 3
  | _ => 1 # 10
  end.

(** ** Coordinate mapping *)

Section Mapping.
Variables duration zoom : Q.

Definition timelineWidth : Q :=
  Qmin 20000 (Qmax 800 (duration * 60 * zoom)).

(** [!duration] holds exactly when the number is zero. *)
Definition timeToPixel (t : Q) : Q :=
  if Qeq_bool duration 0 then 0 else (t / duration) * timelineWidth.

Definition pixelToTime (pixel : Q) : Q :=
  if Qeq_bool duration 0 then 0 else (pixel / timelineWidth) * duration.
End Mapping.

(** ** Sorting by time

    [.sort((a, b) => a.time - b.time)] is a stable sort; a stable sort by a
    key has one possible result, computed here by insertion. *)

Fixpoint insertByTime (c : StacyCommand) (l : list StacyCommand) : list StacyCommand :=
  match l with
  | [] => [c]
  | h :: t =>
      if Qle_bool (time c) (time h) then c :: h :: t
      else h :: insertByTime c t
  end.

Definition sortByTime (l : list StacyCommand) : list StacyCommand :=
  fold_right insertByTime [] l.

(** ** organizeCommandsIntoTracks *)

Definition commandEnd (c : StacyCommand) : Q := time c + getCommandDuration c.

(** The inner [for (const track of tracks)] loop: [Some] of the updated
    rows when the command was pushed onto a row ([placedInTrack]), [None]
    when every row was skipped. *)
Fixpoint placeInTrack (command : StacyCommand) (tracks : list (list StacyCommand))
  : option (list (list StacyCommand)) :=
  match tracks with
  | [] => None
  | track :: rest =>
      match lastOf track with
      | None => option_map (cons track) (placeInTrack command rest)
      | Some lastCommandInTrack =>
          if Qle_bool (commandEnd lastCommandInTrack) (time command)
          then Some ((track ++ [command]) :: rest)
          else option_map (cons track) (placeInTrack command rest)
      end
  end.

Definition addToTracks (tracks : list (list StacyCommand)) (command : StacyCommand)
  : list (list StacyCommand) :=
  match placeInTrack command tracks with
  | Some tracks' => tracks'
  | None => tracks ++ [[command]]
  end.

(** The commands of one lane, in the order of the command list. *)
Definition lane (commands : list StacyCommand) (lt : LightType) : list StacyCommand :=
  filter (fun cmd => LightType_beq (lightType (parameters cmd)) lt) commands.

Definition lightCommands (commands : list StacyCommand) (lt : LightType) : list StacyCommand :=
  sortByTime (lane commands lt).

Definition organizeCommandsIntoTracks (commands : list StacyCommand) (lt : LightType)
  : list (list StacyCommand) :=
  fold_left addToTracks (lightCommands commands lt) [].

(** ** Intervals and overlap *)

(** The instant [t] lies in the half-open interval [time, time+duration). *)
Definition covers (c : StacyCommand) (t : Q) : bool :=
  Qle_bool (time c) t && Qltb t (commandEnd c).

Definition overlap (a b : StacyCommand) : Prop :=
  exists t, covers a t = true /\ covers b t = true.

(** Number of commands of [l] whose interval contains the instant [t]. *)
Definition depth (l : list StacyCommand) (t : Q) : nat :=
  length (filter (fun c => covers c t) l).

(** Brute-force clique number: the largest depth seen at a start time. *)
Definition cliqueNumber (l : list StacyCommand) : nat :=
  list_max (map (fun c => depth l (time c)) l).

(** ** Drag-to-edit *)

Record DragState := {
  isDragging : bool;
  dragCommand : option StacyCommand;
  dragOffset : Q
}.

(** [rectLeft] is the left edge of the command element under the pointer. *)
Definition handleCommandMouseDown (clientX rectLeft : Q) (command : StacyCommand)
  : DragState :=
  {| isDragging := true; dragCommand := Some command; dragOffset := clientX - rectLeft |}.

(** The call [onCommandUpdate(id, { time })] made by a pointer move, if any.
    [mounted] is [timelineRef.current] being non-null, [rectLeft] the left
    edge of the timeline element. *)
Definition handleMouseMove (duration zoom : Q) (mounted : bool) (clientX rectLeft : Q)
    (s : DragState) : option (string * Q) :=
  if negb (isDragging s) then None else
  match dragCommand s with
  | None => None
  | Some cmd =>
      if negb mounted then None else
      let x := clientX - rectLeft - dragOffset s in
      let newTime := Qmax 0 (Qmin duration (pixelToTime duration zoom x)) in
      Some (id cmd, newTime)
  end.

Definition handleMouseUp (s : DragState) : DragState :=
  {| isDragging := false; dragCommand := None; dragOffset := 0 |}.

(** The parent's [updateCommand] restricted to a [{ time }] update. *)
Definition updateCommand (commands : list StacyCommand) (commandId : string) (newTime : Q)
  : list StacyCommand :=
  sortByTime
    (map (fun cmd =>
            if String.eqb (id cmd) commandId
            then {| id := id cmd; time := newTime; type := type cmd;
                    parameters := parameters cmd |}
            else cmd) commands).

(** ** Layout invariants and sample data *)

Definition byTime (a b : StacyCommand) : Prop := time a <= time b.

(** Within a row every command ends before the later ones start. *)
Definition endsBefore (a b : StacyCommand) : Prop := commandEnd a <= time b.

Definition rowOrdered (row : list StacyCommand) : Prop := StronglySorted endsBefore row.

Definition tracksOk (tracks : list (list StacyCommand)) : Prop :=
  Forall (fun row => row <> [] /\ rowOrdered row) tracks.

(** Every command already placed starts no later than [s]. *)
Definition allBefore (tracks : list (list StacyCommand)) (s : Q) : Prop :=
  Forall (fun c => time c <= s) (concat tracks).

(** The rows never outnumber the commands overlapping at some start time. *)
Definition cliqueReached (tracks : list (list StacyCommand)) : Prop :=
  tracks = [] \/
  exists c, In c (concat tracks) /\ (length tracks <= depth (concat tracks) (time c))%nat.

Definition fadeCommand (t : Q) (speed : option Q) : StacyCommand :=
  {| id := "fade"; time := t; type := FadeOn;
     parameters := {| lightType := HeadsA; fadeSpeed := speed |} |}.

Definition plainCommand (name : string) (t : Q) (ty : CommandType) : StacyCommand :=
  {| id := name; time := t; type := ty;
     parameters := {| lightType := HeadsA; fadeSpeed := None |} |}.

Definition draggedPan : StacyCommand := plainCommand "pan-1" 5 Pan.

(** A drag of [draggedPan] that was started 10 px right of its left edge. *)
Definition panDrag : DragState := handleCommandMouseDown 310 300 draggedPan.

(** A command list that holds [draggedPan] among other commands. *)
Definition panCommands : list StacyCommand :=
  [plainCommand "a" 1 Pan; plainCommand "b" (105 # 100) Tilt; draggedPan;
   plainCommand "c" 30 On].

(** Two point effects 0.05 s apart and a third one a second later. *)
Definition scenarioB : list StacyCommand :=
  [plainCommand "a" 1 Pan; plainCommand "b" (105 # 100) Tilt; plainCommand "c" 2 On].

(** A cue of 3 s and, inside it, a fade whose fadeSpeed is 0. *)
Definition zeroFade : list StacyCommand :=
  [plainCommand "cue" 0 Cue; fadeCommand 1 (Some 0)].

(** ** Seeking, following and zooming in the timeline *)

(** A click on the timeline: the call [onTimeChange(clampedTime)], if any,
    and the new value of [isUserScrolling].  [mounted] is
    [timelineRef.current] being non-null, [rectLeft] the left edge of the
    timeline element. *)
Definition handleTimelineClick (duration zoom : Q) (mounted : bool)
    (clientX rectLeft : Q) (drag : DragState) (isUserScrolling : bool)
  : option Q * bool :=
  if negb mounted || isDragging drag then (None, isUserScrolling) else
  let x := clientX - rectLeft in
  let time := pixelToTime duration zoom x in
  let clampedTime := Qmax 0 (Qmin duration time) in
  (Some clampedTime, false).

(** The auto-scroll effect of the timeline: the scroll position it asks
    for, if any.  [mounted] is the scroll container being present. *)
Definition autoScroll (isPlaying isUserScrolling mounted : bool)
    (duration zoom currentTime containerWidth currentScrollLeft : Q) : option Q :=
  if negb isPlaying || isUserScrolling || negb mounted || Qeq_bool duration 0
  then None
  else
    let playheadPosition := timeToPixel duration zoom currentTime in
    let leftEdge := currentScrollLeft in
    let rightEdge := currentScrollLeft + containerWidth in
    let margin := containerWidth * (1 # 10) in
    if Qltb playheadPosition (leftEdge + margin)
       || Qltb (rightEdge - margin) playheadPosition
    then
      let targetScrollLeft := playheadPosition - containerWidth / 2 in
      Some (Qmax 0 targetScrollLeft)
    else None.

(** The zoom buttons of the timeline. *)
Definition zoomIn (zoom : Q) : Q := Qmin 4 (zoom * (3 # 2)).

Definition zoomOut (zoom : Q) : Q := Qmax (1 # 10) (zoom / (3 # 2)).

(** ** Heights of the rows of a track *)

Definition TRACK_HEIGHT : nat := 50.

(** [commandRows] is the number of rows of the track. *)
Definition rowHeight (commandRows : nat) : nat :=
  Nat.max 20 ((TRACK_HEIGHT - 24) / Nat.max 1 commandRows).

Definition actualTrackHeight (commandRows : nat) : nat :=
  Nat.max TRACK_HEIGHT (commandRows * (rowHeight commandRows + 2) + 24).

(** [top] of the row [rowIndex]. *)
Definition rowTop (commandRows rowIndex : nat) : nat :=
  rowIndex * (rowHeight commandRows + 2) + 20.

(** ** Time markers *)

(** [a % n] on numbers: the remainder has the sign of [a]. *)
Definition Qtrunc (q : Q) : Z := if Qle_bool 0 q then Qfloor q else Qceiling q.

Definition jsRem (a n : Q) : Q := a - n * inject_Z (Qtrunc (a / n)).

(** [toString()] of a number that is an integer. *)
Definition numberToString (z : Z) : string := NilZero.string_of_int (Z.to_int z).

(** [padStart(2, "0")]. *)
Definition padStart2 (s : string) : string :=
  match String.length s with
  | 0%nat => "00"
  | 1%nat => "0" ++ s
  | _ => s
  end.

Definition formatTime (t : Q) : string :=
  let minutes := Qfloor (t / 60) in
  let seconds := Qfloor (jsRem t 60) in
  let centiseconds := Qfloor (jsRem t 1 * 100) in
  numberToString minutes ++ ":" ++ padStart2 (numberToString seconds)
  ++ "." ++ padStart2 (numberToString centiseconds).

(** The elements pushed by [generateTimeMarkers]: the 1 px marker (taller
    on a full minute) and the time label. *)
Inductive MarkerElement :=
  | Tick (markerTime : Z) (left : Q) (isMinute : bool)
  | Label (markerTime : Z) (left : Q) (text : string).

(** The interval in seconds; [timelineWidth / duration] is [Infinity] for
    a zero duration, which leaves the interval at 1. *)
Definition markerInterval (duration zoom : Q) : Z :=
  if Qeq_bool duration 0 then 1%Z else
  let pixelsPerSecond := timelineWidth duration zoom / duration in
  if Qltb pixelsPerSecond 20 then 10%Z
  else if Qltb pixelsPerSecond 50 then 5%Z
  else if Qltb pixelsPerSecond 100 then 2%Z
  else 1%Z.

(** The body of the loop, for the marker at [t] seconds. *)
Definition markerElements (duration zoom : Q) (interval t : Z) : list MarkerElement :=
  let x := timeToPixel duration zoom (inject_Z t) in
  let isMinute := (Z.rem t 60 =? 0)%Z in
  Tick t x isMinute
  :: (if isMinute || ((interval <=? 2)%Z && (Z.rem t 10 =? 0)%Z)
      then [Label t x (formatTime (inject_Z t))]
      else []).

(** The loop [for (time = 0; time <= duration; time += interval)], from
    [t] on, for at most [fuel] iterations. *)
Fixpoint markersFrom (fuel : nat) (duration zoom : Q) (interval t : Z)
  : list MarkerElement :=
  match fuel with
  | O => []
  | S fuel' =>
      if Qle_bool (inject_Z t) duration
      then markerElements duration zoom interval t
           ++ markersFrom fuel' duration zoom interval (t + interval)
      else []
  end.

(** The interval is at least 1, so the loop ends within
    [floor duration + 1] iterations. *)
Definition generateTimeMarkers (duration zoom : Q) : list MarkerElement :=
  markersFrom (S (Z.to_nat (Qfloor duration))) duration zoom
    (markerInterval duration zoom) 0.

Definition tickTimes (elements : list MarkerElement) : list Z :=
  flat_map (fun e => match e with
                     | Tick t _ _ => [t]
                     | Label _ _ _ => []
                     end) elements.

(** ** The box drawn for a command *)

Definition commandLeft (duration zoom : Q) (command : StacyCommand) : Q :=
  timeToPixel duration zoom (time command).

Definition commandWidth (duration zoom : Q) (command : StacyCommand) : Q :=
  Qmax 60 (timeToPixel duration zoom (getCommandDuration command)).

End Timeline.

(** * The AudioPlayer component *)
Module AudioPlayer.

(** Width of the waveform canvas. *)
Definition waveformDisplayWidth (duration zoom : Q) : Q :=
  Qmax 800 (duration * 60 * zoom).

(** ** Decoded audio and analysis results *)

(** [channelData] is [getChannelData(0)]; [audioBuffer.length] is its
    length. *)
Record AudioBuffer := {
  channelData : list Q;
  duration : Q
}.

(** The value of [energy / previousEnergy]: a division by zero of a
    positive dividend is [Infinity] in JavaScript. *)
Inductive Ratio :=
  | Finite (q : Q)
  | Infinity.

Definition divide (a b : Q) : Ratio :=
  if Qeq_bool b 0 then Infinity else Finite (a / b).

Record BeatData := {
  time : Q;
  strength : Ratio
}.

(** [Math.max(...values)]; [None] stands for [-Infinity], the value on an
    empty argument list. *)
Definition mathMax (values : list Q) : option Q :=
  fold_left (fun acc v => match acc with
                          | None => Some v
                          | Some m => Some (Qmax m v)
                          end) values None.

(** [maxVal > 0]. *)
Definition isPositive (maxVal : option Q) : bool :=
  match maxVal with
  | None => false
  | Some m => Qltb 0 m
  end.

Definition quotient (val : Q) (maxVal : option Q) : Q :=
  match maxVal with
  | None => 0
  | Some m => val / m
  end.

(** Body of the loop over the samples of a block: [acc] is the pair of
    [peak] and the running sum [rms] of the squares. *)
Definition sumStep (rawData : list Q) (acc : Q * Q) (j : nat) : Q * Q :=
  let sample := nth j rawData 0 in
  let absSample := Qabs sample in
  (Qmax (fst acc) absSample, snd acc + sample * sample).

Section Analysis.
(** [Math.sqrt]. *)
Variable sqrt : Q -> Q.

(** The inner loop over [j]: the block's peak and its sum of squares. *)
Definition blockSums (rawData : list Q) (blockStart blockEnd : nat) : Q * Q :=
  fold_left (sumStep rawData) (seq blockStart (blockEnd - blockStart)) (0, 0).

Record LoopState := {
  waveformPoints : list Q;
  beats : list BeatData;
  previousEnergy : Q
}.

Definition beatThreshold : Q := 13 # 10.

(** [rms] of block [i] after the square root.  For the blocks of the loop
    [blockEnd] is [blockStart + blockSize], so the subtraction on [nat]
    is the subtraction of the source. *)
Definition blockEnergy (rawData : list Q) (blockSize i : nat) : Q :=
  let blockStart := (blockSize * i)%nat in
  let blockEnd := Nat.min (blockStart + blockSize) (length rawData) in
  sqrt (snd (blockSums rawData blockStart blockEnd) / ofNat (blockEnd - blockStart)).

Definition blockAmplitude (rawData : list Q) (blockSize i : nat) : Q :=
  let blockStart := (blockSize * i)%nat in
  let blockEnd := Nat.min (blockStart + blockSize) (length rawData) in
  let peak := fst (blockSums rawData blockStart blockEnd) in
  let rms := blockEnergy rawData blockSize i in
  Qmax peak (rms * 2).

(** One iteration of the loop over the blocks. *)
Definition loopBody (audioBuffer : AudioBuffer) (samples blockSize : nat)
    (st : LoopState) (i : nat) : LoopState :=
  let rawData := channelData audioBuffer in
  let energy := blockEnergy rawData blockSize i in
  let amplitude := blockAmplitude rawData blockSize i in
  let beats' :=
    if Qltb (previousEnergy st * beatThreshold) energy && Qltb (1 # 10) energy
    then beats st ++ [{| time := (ofNat i / ofNat samples) * duration audioBuffer;
                         strength := divide energy (previousEnergy st) |}]
    else beats st in
  {| waveformPoints := waveformPoints st ++ [amplitude];
     beats := beats';
     previousEnergy := energy * (7 # 10) + previousEnergy st * (3 # 10) |}.

Definition initialLoopState : LoopState :=
  {| waveformPoints := []; beats := []; previousEnergy := 0 |}.

Definition blockCount (audioBuffer : AudioBuffer) : nat :=
  Nat.min 1500 (length (channelData audioBuffer) / 1024).

(** [Math.floor(rawData.length / samples)]; with [samples = 0] the
    JavaScript value is not a finite number, and it is never used, since
    the loop body does not run ([Nat.div] gives 0 there). *)
Definition blockLength (audioBuffer : AudioBuffer) : nat :=
  (length (channelData audioBuffer) / blockCount audioBuffer)%nat.

Definition runLoop (audioBuffer : AudioBuffer) (n : nat) : LoopState :=
  fold_left (loopBody audioBuffer (blockCount audioBuffer) (blockLength audioBuffer))
            (seq 0 n) initialLoopState.

Definition normalize (points : list Q) : list Q :=
  let maxVal := mathMax points in
  map (fun val => if isPositive maxVal then quotient val maxVal else 0) points.

(** The analysis between decoding and the state updates: the normalised
    waveform and the beats. *)
Definition analyse (audioBuffer : AudioBuffer) : list Q * list BeatData :=
  let st := runLoop audioBuffer (blockCount audioBuffer) in
  (normalize (waveformPoints st), beats st).

(** ** generateAdvancedWaveform: the try/catch around the analysis *)

Inductive Result (A : Type) :=
  | Ok (a : A)
  | Throw.
Arguments Ok {A} a.
Arguments Throw {A}.

Definition bind {A B : Type} (r : Result A) (k : A -> Result B) : Result B :=
  match r with
  | Ok a => k a
  | Throw => Throw
  end.

(** The platform calls of the try block, each of which may throw or
    reject: creating the audio context, reading the bytes of the file or
    URL, decoding them, closing the context. *)
Record Platform := {
  createContext : Result unit;
  readBytes : Result unit;
  decodeAudioData : Result AudioBuffer;
  closeContext : Result unit
}.

Definition tryBlock (env : Platform) : Result (list Q * list BeatData) :=
  bind (createContext env) (fun _ =>
  bind (readBytes env) (fun _ =>
  bind (decodeAudioData env) (fun audioBuffer =>
  let result := analyse audioBuffer in
  bind (closeContext env) (fun _ =>
  Ok result)))).

Record PlayerState := {
  waveformData : list Q;
  beatData : list BeatData;
  isLoadingWaveform : bool
}.

(** [hasSource] is [audio && (audioUrl || audioFile)].  A throw after the
    two state updates of the try block still reaches the catch block,
    whose updates are the last ones. *)
Definition generateAdvancedWaveform (hasSource : bool) (env : Platform)
    (st : PlayerState) : PlayerState :=
  if negb hasSource then st else
  match tryBlock env with
  | Ok (w, b) =>
      {| waveformData := w; beatData := b; isLoadingWaveform := false |}
  | Throw =>
      {| waveformData := repeat (1 # 10) 100; beatData := [];
         isLoadingWaveform := false |}
  end.
End Analysis.

Arguments Ok {A} a.
Arguments Throw {A}.

(** ** Beats, and sample data for the analysis *)

(** Time stamp given to a beat found in block [i]. *)
Definition beatTime (audioBuffer : AudioBuffer) (i : nat) : Q :=
  (ofNat i / ofNat (blockCount audioBuffer)) * duration audioBuffer.

(** The beat [b] was pushed while block [i] was processed. *)
Definition emittedAt (sqrt : Q -> Q) (audioBuffer : AudioBuffer) (i : nat) (b : BeatData)
  : Prop :=
  let energy := blockEnergy sqrt (channelData audioBuffer) (blockLength audioBuffer) i in
  let previous := previousEnergy (runLoop sqrt audioBuffer i) in
  time b = beatTime audioBuffer i
  /\ strength b = divide energy previous
  /\ previous * beatThreshold < energy
  /\ 1 # 10 < energy.

Definition beatOrder (a b : BeatData) : Prop := time a <= time b.

(** [Math.sqrt] rounded up to six decimals, for the concrete runs below. *)
Definition sqrtUp (x : Q) : Q :=
  Z.sqrt_up (Qnum x * Z.pos (Qden x) * 10 ^ 12) # (Qden x * 1000000).

Definition shortBuffer : AudioBuffer :=
  {| channelData := repeat (1 # 2) 1000; duration := 1000 # 44100 |}.

Definition undecodable : Platform :=
  {| createContext := Ok tt; readBytes := Ok tt;
     decodeAudioData := Throw; closeContext := Ok tt |}.

Definition emptyPlayer : PlayerState :=
  {| waveformData := []; beatData := []; isLoadingWaveform := true |}.

(** Three blocks of 1024 samples: silence, half amplitude, full amplitude. *)
Definition threeBlocks : AudioBuffer :=
  {| channelData := repeat 0 1024 ++ repeat (1 # 2) 1024 ++ repeat 1 1024;
     duration := 3 |}.

(** Two silent blocks followed by one sample that no block covers. *)
Definition lateClick : AudioBuffer :=
  {| channelData := repeat 0 2048 ++ [1]; duration := 2049 # 44100 |}.

(** One block at full amplitude. *)
Definition loudStart : AudioBuffer :=
  {| channelData := repeat 1 1024; duration := 1024 # 44100 |}.

(** [lateClick] with another sample after the last block. *)
Definition lateClick' : AudioBuffer :=
  {| channelData := repeat 0 2048 ++ [-1 # 2]; duration := 2049 # 44100 |}.

(** 2048 samples of silence. *)
Definition silence : AudioBuffer :=
  {| channelData := repeat 0 2048; duration := 2048 # 44100 |}.

Definition oneSample : AudioBuffer :=
  {| channelData := [1]; duration := 1 # 44100 |}.

Definition strengthValue (b : BeatData) : option Q :=
  match strength b with
  | Finite q => Some (Qred q)
  | Infinity => None
  end.

(** ** Scroll state: auto-follow and manual override *)

Local Open Scope Z_scope.

(** [timeout] is the instant at which the pending [setTimeout] of the
    reset effect is due, if one is pending. *)
Record ScrollState := {
  isUserScrollingWaveform : bool;
  lastWaveformScrollTime : Z;
  timeout : option Z
}.

Definition initialScrollState : ScrollState :=
  {| isUserScrollingWaveform := false; lastWaveformScrollTime := 0; timeout := None |}.

(** The effect with dependencies [isUserScrollingWaveform,
    lastWaveformScrollTime], run at [now] after the state went from [old]
    to the pair [(flag, last)]: when a dependency changed, the cleanup
    clears the pending timer and, if the flag is set, a new one is started. *)
Definition resetEffect (now : Z) (old : ScrollState) (flag : bool) (last : Z) : ScrollState :=
  let changed :=
    negb (Bool.eqb (isUserScrollingWaveform old) flag)
    || negb (lastWaveformScrollTime old =? last) in
  {| isUserScrollingWaveform := flag;
     lastWaveformScrollTime := last;
     timeout := if changed
                then (if flag then Some (now + 2100) else None)
                else timeout old |}.

Definition handleScroll (now : Z) (s : ScrollState) : ScrollState :=
  resetEffect now s true now.

(** The pending timer fires at [now]: nothing happens unless it is due. *)
Definition timeoutFires (now : Z) (s : ScrollState) : ScrollState :=
  match timeout s with
  | None => s
  | Some due =>
      if due <=? now then
        let fired := {| isUserScrollingWaveform := isUserScrollingWaveform s;
                        lastWaveformScrollTime := lastWaveformScrollTime s;
                        timeout := None |} in
        if now - lastWaveformScrollTime s >? 2000
        then resetEffect now fired false (lastWaveformScrollTime s)
        else fired
      else s
  end.

(** A click on the waveform canvas; [mounted] is the canvas and the scroll
    container both being present. *)
Definition handleSeek (now : Z) (duration : Q) (mounted : bool) (s : ScrollState)
  : ScrollState :=
  if Qeq_bool duration 0 then s
  else if negb mounted then s
  else resetEffect now s false (lastWaveformScrollTime s).

(** The auto-scroll effect, run on every change of the playback time: the
    scroll position it asks for, if any.  [mounted] is the scroll container
    being present. *)
Definition autoScroll (isPlaying : bool) (s : ScrollState) (mounted : bool)
    (duration zoom currentTime containerWidth currentScrollLeft : Q) : option Q :=
  if negb isPlaying || isUserScrollingWaveform s || negb mounted || Qeq_bool duration 0
  then None
  else
    let playheadPosition := ((currentTime / duration) * waveformDisplayWidth duration zoom)%Q in
    let leftEdge := currentScrollLeft in
    let rightEdge := (currentScrollLeft + containerWidth)%Q in
    let margin := (containerWidth * (1 # 10))%Q in
    if Qltb playheadPosition (leftEdge + margin)%Q
       || Qltb (rightEdge - margin)%Q playheadPosition
    then
      let targetScrollLeft := (playheadPosition - containerWidth / 2)%Q in
      Some (Qmax 0 targetScrollLeft)
    else None.

Inductive Event :=
  | Scroll
  | TimeoutFires
  | SeekClick (duration : Q) (mounted : bool).

Definition step (s : ScrollState) (e : Z * Event) : ScrollState :=
  match snd e with
  | Scroll => handleScroll (fst e) s
  | TimeoutFires => timeoutFires (fst e) s
  | SeekClick duration mounted => handleSeek (fst e) duration mounted s
  end.

Definition run (trace : list (Z * Event)) : ScrollState :=
  fold_left step trace initialScrollState.

(** Timestamp of the most recent scroll event of a trace. *)
Definition lastScroll (trace : list (Z * Event)) : option Z :=
  fold_left (fun acc e => match snd e with
                          | Scroll => Some (fst e)
                          | _ => acc
                          end) trace None.

(** What holds of the state after any sequence of events: while the user
    is scrolling, the recorded time is that of the latest scroll event and
    the pending timer is due 2100 ms after it; otherwise no timer is
    pending. *)
Definition scrollInv (trace : list (Z * Event)) (s : ScrollState) : Prop :=
  if isUserScrollingWaveform s
  then lastScroll trace = Some (lastWaveformScrollTime s)
       /\ timeout s = Some (lastWaveformScrollTime s + 2100)
  else timeout s = None.

Definition twoScrolls : list (Z * Event) := [(0, Scroll); (1000, Scroll)].

Local Open Scope Q_scope.

(** ** Seeking, beat navigation, zooming and drawing in the audio player *)

(** The time passed to [onTimeUpdate] by a click on the canvas, if any;
    [containerLeft] and [scrollLeft] are those of the scroll container. *)
Definition handleSeekTime (duration zoom : Q) (mounted : bool)
    (clientX containerLeft scrollLeft : Q) : option Q :=
  if Qeq_bool duration 0 then None
  else if negb mounted then None
  else
    let x := clientX - containerLeft + scrollLeft in
    let newTime := (x / waveformDisplayWidth duration zoom) * duration in
    Some newTime.

(** [goToNextBeat]: the time passed to [onTimeUpdate], if any, and the
    scroll state.  [now] is the time of the key press or click. *)
Definition goToNextBeat (now : Z) (beatData : list BeatData) (currentTime : Q)
    (s : ScrollState) : option Q * ScrollState :=
  match beatData with
  | [] => (None, s)
  | _ =>
      match find (fun beat => Qltb (currentTime + (1 # 10)) (time beat)) beatData with
      | Some nextBeat =>
          (Some (time nextBeat), resetEffect now s false (lastWaveformScrollTime s))
      | None => (None, s)
      end
  end.

(** [goToPreviousBeat]; [.filter(...).pop()] is the last beat that passes
    the test. *)
Definition goToPreviousBeat (now : Z) (beatData : list BeatData) (currentTime : Q)
    (s : ScrollState) : option Q * ScrollState :=
  match beatData with
  | [] => (None, s)
  | _ =>
      match lastOf (filter (fun beat => Qltb (time beat) (currentTime - (1 # 10))) beatData) with
      | Some previousBeat =>
          (Some (time previousBeat), resetEffect now s false (lastWaveformScrollTime s))
      | None => (Some 0, resetEffect now s false (lastWaveformScrollTime s))
      end
  end.

Definition hasPreviousBeat (beatData : list BeatData) (currentTime : Q) : bool :=
  existsb (fun beat => Qltb (time beat) (currentTime - (1 # 10))) beatData.

Definition hasNextBeat (beatData : list BeatData) (currentTime : Q) : bool :=
  existsb (fun beat => Qltb (currentTime + (1 # 10)) (time beat)) beatData.

(** The zoom buttons of the waveform. *)
Definition zoomIn (zoom : Q) : Q := Qmin 4 (zoom * (6 # 5)).

Definition zoomOut (zoom : Q) : Q := Qmax (1 # 10) (zoom / (6 # 5)).

(** [Math.min(beat.strength, 2)]. *)
Definition clipStrength (r : Ratio) : Q :=
  match r with
  | Finite q => Qmin q 2
  | Infinity => 2
  end.

(** The red line drawn for a beat by [drawAdvancedWaveform] on a canvas of
    the given width: its abscissa and its [globalAlpha]; nothing is drawn
    for a beat later than [duration]. *)
Definition beatMarker (duration width : Q) (beat : BeatData) : option (Q * Q) :=
  if Qle_bool (time beat) duration
  then
    let x := (time beat / duration) * width in
    let strength := clipStrength (strength beat) in
    Some (x, (4 # 10) + strength * (3 # 10))
  else None.

(** [drawThrottled] called at [now] with [lastDrawTime.current = last]:
    whether the waveform is drawn, and the new [lastDrawTime.current]. *)
Definition drawThrottled (now last : Z) : bool * Z :=
  if (now - last >? 33)%Z then (true, now) else (false, last).

(** The times at which a sequence of calls of [drawThrottled] draws. *)
Fixpoint drawTimes (calls : list Z) (last : Z) : list Z :=
  match calls with
  | [] => []
  | now :: rest =>
      let (drawn, last') := drawThrottled now last in
      if drawn then now :: drawTimes rest last' else drawTimes rest last'
  end.

End AudioPlayer.

(** * The MusicTimeline component: the owner of the command list, the
    playback time and the zoom *)
Module MusicTimeline.
Import Timeline.

(** ** The command list *)

(** [Date.now().toString()]. *)
Definition dateString (now : Z) : string := NilZero.string_of_int (Z.to_int now).

(** The argument of [addCommand]: a command without its id. *)
Record CommandDraft := {
  draftTime : Q;
  draftType : CommandType;
  draftParameters : CommandParameters
}.

Definition panDraft : CommandDraft :=
  {| draftTime := 0; draftType := Pan;
     draftParameters := {| lightType := HeadsA; fadeSpeed := None |} |}.

Definition addCommand (commands : list StacyCommand) (now : Z) (currentTime : Q)
    (command : CommandDraft) : list StacyCommand :=
  let newCommand :=
    {| id := dateString now; time := currentTime; type := draftType command;
       parameters := draftParameters command |} in
  sortByTime (commands ++ [newCommand]).

(** [Partial<StacyCommand>]: [None] is an absent field. *)
Record CommandUpdates := {
  newId : option string;
  newTime : option Q;
  newType : option CommandType;
  newParameters : option CommandParameters
}.

Definition orElse {A : Type} (update : option A) (old : A) : A :=
  match update with
  | Some v => v
  | None => old
  end.

(** [{ ...cmd, ...updates }]. *)
Definition applyUpdates (cmd : StacyCommand) (updates : CommandUpdates) : StacyCommand :=
  {| id := orElse (newId updates) (id cmd);
     time := orElse (newTime updates) (time cmd);
     type := orElse (newType updates) (type cmd);
     parameters := orElse (newParameters updates) (parameters cmd) |}.

Definition updateCommand (commands : list StacyCommand) (commandId : string)
    (updates : CommandUpdates) : list StacyCommand :=
  sortByTime
    (map (fun cmd => if String.eqb (id cmd) commandId then applyUpdates cmd updates else cmd)
         commands).

(** [deleteCommand]: the new command list and the new selection. *)
Definition deleteCommand (commands : list StacyCommand) (selectedCommand : option StacyCommand)
    (commandId : string) : list StacyCommand * option StacyCommand :=
  let updatedCommands := filter (fun cmd => negb (String.eqb (id cmd) commandId)) commands in
  (updatedCommands,
   match selectedCommand with
   | Some selected => if String.eqb (id selected) commandId then None else selectedCommand
   | None => None
   end).

Definition handleImportCommands (commands importedCommands : list StacyCommand)
  : list StacyCommand :=
  sortByTime (commands ++ importedCommands).

Inductive Edit :=
  | Add (now : Z) (currentTime : Q) (command : CommandDraft)
  | Update (commandId : string) (updates : CommandUpdates)
  | Delete (commandId : string)
  | ImportCommands (importedCommands : list StacyCommand).

Definition applyEdit (commands : list StacyCommand) (e : Edit) : list StacyCommand :=
  match e with
  | Add now currentTime command => addCommand commands now currentTime command
  | Update commandId updates => updateCommand commands commandId updates
  | Delete commandId => fst (deleteCommand commands None commandId)
  | ImportCommands importedCommands => handleImportCommands commands importedCommands
  end.

(** ** Keyboard shortcuts *)

Inductive Key :=
  | Space
  | Home
  | ArrowLeft (shiftKey : bool)
  | ArrowRight (shiftKey : bool)
  | OtherKey.

Record Playback := {
  currentTime : Q;
  isPlaying : bool
}.

(** [inInput] is the event target being an input or a text area. *)
Definition handleKeyPress (duration : Q) (inInput : bool) (key : Key) (st : Playback)
  : Playback :=
  if inInput then st else
  match key with
  | Space => {| currentTime := currentTime st; isPlaying := negb (isPlaying st) |}
  | Home => {| currentTime := 0; isPlaying := isPlaying st |}
  | ArrowLeft shiftKey =>
      {| currentTime := Qmax 0 (currentTime st - (if shiftKey then 1 # 10 else 1));
         isPlaying := isPlaying st |}
  | ArrowRight shiftKey =>
      {| currentTime := Qmin duration (currentTime st + (if shiftKey then 1 # 10 else 1));
         isPlaying := isPlaying st |}
  | OtherKey => st
  end.

Definition pressKeys (duration : Q) (keys : list (bool * Key)) (st : Playback) : Playback :=
  fold_left (fun s k => handleKeyPress duration (fst k) (snd k) s) keys st.

(** ** Zoom: one value, changed by the buttons of both components *)

Inductive ZoomButton :=
  | TimelineZoomIn
  | TimelineZoomOut
  | WaveformZoomIn
  | WaveformZoomOut
  | ZoomReset.

Definition pressZoom (zoom : Q) (b : ZoomButton) : Q :=
  match b with
  | TimelineZoomIn => Timeline.zoomIn zoom
  | TimelineZoomOut => Timeline.zoomOut zoom
  | WaveformZoomIn => AudioPlayer.zoomIn zoom
  | WaveformZoomOut => AudioPlayer.zoomOut zoom
  | ZoomReset => 1
  end.

Definition pressZooms (buttons : list ZoomButton) (zoom : Q) : Q :=
  fold_left pressZoom buttons zoom.

End MusicTimeline.

(** * Properties *)

Lemma Qltb_true (a b : Q) : Qltb a b = true <-> a < b.
Proof.
  unfold Qltb. rewrite negb_true_iff. split; intro H.
  - apply Qnot_le_lt. intro Hle. apply Qle_bool_iff in Hle. congruence.
  - destruct (Qle_bool b a) eqn:E; [|reflexivity].
    apply Qle_bool_iff in E. exfalso. apply (Qlt_not_le _ _ H E).
Qed.

Lemma Qltb_false (a b : Q) : Qltb a b = false <-> b <= a.
Proof.
  unfold Qltb. rewrite negb_false_iff. apply Qle_bool_iff.
Qed.

Lemma Qle_bool_false (a b : Q) : Qle_bool a b = false <-> b < a.
Proof.
  rewrite <- Qltb_true. unfold Qltb. rewrite negb_true_iff. reflexivity.
Qed.

Lemma Qeq_bool_true_of_eq (a b : Q) : a == b -> Qeq_bool a b = true.
Proof. intro H. apply Qeq_bool_iff. exact H. Qed.

Lemma clamp_bounds (lo hi v : Q) :
  lo <= hi -> lo <= Qmax lo (Qmin hi v) /\ Qmax lo (Qmin hi v) <= hi.
Proof.
  intro H. split.
  - apply Q.le_max_l.
  - apply Q.max_lub; [exact H | apply Q.le_min_l].
Qed.

Lemma clamp_inside (lo hi v : Q) :
  lo <= v -> v <= hi -> Qmax lo (Qmin hi v) == v.
Proof.
  intros H1 H2.
  rewrite (Q.min_r hi v) by exact H2.
  apply Q.max_r. exact H1.
Qed.

Lemma lastOf_In {A : Type} (l : list A) (x : A) : lastOf l = Some x -> In x l.
Proof.
  induction l as [|h t IH]; simpl; [discriminate|].
  destruct t as [|h' t'].
  - intro H. injection H as ->. left. reflexivity.
  - intro H. right. apply IH. exact H.
Qed.

Lemma lastOf_nonempty {A : Type} (l : list A) : l <> [] -> exists x, lastOf l = Some x.
Proof.
  induction l as [|h t IH]; intro H; [contradiction|].
  destruct t as [|h' t'].
  - exists h. reflexivity.
  - destruct IH as [x Hx]; [discriminate|]. exists x. exact Hx.
Qed.

Lemma sorted_last {A : Type} (R : A -> A -> Prop) (l : list A) (x : A) :
  StronglySorted R l -> lastOf l = Some x -> Forall (fun a => a = x \/ R a x) l.
Proof.
  induction l as [|h t IH]; intros Hs Hl; [constructor|].
  inversion Hs as [|? ? Ht Hh]; subst.
  destruct t as [|h' t'].
  - simpl in Hl. injection Hl as ->. constructor; [left; reflexivity | constructor].
  - constructor.
    + right. rewrite Forall_forall in Hh. apply Hh. apply lastOf_In. exact Hl.
    + apply IH; assumption.
Qed.

Lemma sorted_snoc {A : Type} (R : A -> A -> Prop) (l : list A) (x : A) :
  StronglySorted R l -> Forall (fun a => R a x) l -> StronglySorted R (l ++ [x]).
Proof.
  induction l as [|h t IH]; intros Hs Hf; simpl.
  - constructor; constructor.
  - inversion Hs as [|? ? Ht Hh]; subst.
    inversion Hf as [|? ? Hhx Htx]; subst.
    constructor; [apply IH; assumption|].
    apply Forall_app. split; [exact Hh | constructor; [exact Hhx | constructor]].
Qed.

Module TimelineSpec.
Import Timeline.

(** ** Command durations *)

(** C10: the duration of a command depends on its type and parameters
    only: FadeOn and FadeOff take the fadeSpeed parameter, 1 when it is
    absent; Color takes 2, Cue takes 3 and every other type 0.1. *)
Theorem getCommandDuration_by_type (c : StacyCommand) :
  (type c = FadeOn \/ type c = FadeOff ->
     (forall v, fadeSpeed (parameters c) = Some v -> getCommandDuration c = v)
     /\ (fadeSpeed (parameters c) = None -> getCommandDuration c = 1))
  /\ (type c = Color -> getCommandDuration c = 2)
  /\ (type c = Cue -> getCommandDuration c = 3)
  /\ (~ In (type c) [FadeOn; FadeOff; Color; Cue] -> getCommandDuration c = 1 # 10)
  /\ (forall c', type c' = type c -> parameters c' = parameters c ->
        getCommandDuration c' = getCommandDuration c).
Proof.
  unfold getCommandDuration.
  repeat split.
  - intros v Hv. destruct H as [-> | ->]; rewrite Hv; reflexivity.
  - intros Hn. destruct H as [-> | ->]; rewrite Hn; reflexivity.
  - intros ->. reflexivity.
  - intros ->. reflexivity.
  - intros Hnot. simpl in Hnot.
    destruct (type c); try reflexivity; exfalso; apply Hnot; auto.
  - intros c' -> ->. reflexivity.
Qed.

Lemma getCommandDuration_by_type_witness :
  getCommandDuration (fadeCommand 0 (Some (5 # 2))) = 5 # 2
  /\ getCommandDuration (fadeCommand 0 None) = 1
  /\ getCommandDuration (plainCommand "c" 0 Color) = 2
  /\ getCommandDuration (plainCommand "q" 0 Cue) = 3
  /\ getCommandDuration (plainCommand "p" 0 Pan) = 1 # 10.
Proof.
  split; [|split; [|split; [|split]]].
  - apply (proj1 (proj1 (getCommandDuration_by_type (fadeCommand 0 (Some (5 # 2))))
                    (or_introl eq_refl))). reflexivity.
  - apply (proj2 (proj1 (getCommandDuration_by_type (fadeCommand 0 None))
                    (or_introl eq_refl))). reflexivity.
  - apply (proj1 (proj2 (getCommandDuration_by_type (plainCommand "c" 0 Color)))).
    reflexivity.
  - apply (proj1 (proj2 (proj2 (getCommandDuration_by_type (plainCommand "q" 0 Cue))))).
    reflexivity.
  - apply (proj1 (proj2 (proj2 (proj2 (getCommandDuration_by_type (plainCommand "p" 0 Pan)))))).
    simpl. intros [H | [H | [H | [H | []]]]]; discriminate H.
Defined.

(** ** Coordinate mapping *)

Lemma timelineWidth_bounds (duration zoom : Q) :
  800 <= timelineWidth duration zoom /\ timelineWidth duration zoom <= 20000.
Proof.
  unfold timelineWidth. split.
  - apply Q.min_glb; [lra | apply Q.le_max_l].
  - apply Q.le_min_l.
Qed.

Lemma timelineWidth_inside (duration zoom : Q) :
  800 <= duration * 60 * zoom -> duration * 60 * zoom <= 20000 ->
  timelineWidth duration zoom == duration * 60 * zoom.
Proof.
  intros H1 H2. unfold timelineWidth.
  rewrite (Q.max_r 800 _) by exact H1.
  apply Q.min_r. exact H2.
Qed.

(** C4: the track width is [duration * 60 * zoom] clamped between 800 and
    20000; for a duration of 120 at zoom 1 it is 7200 and the time 60 maps
    to the pixel 3600.  (The waveform canvas of the audio player has the
    lower bound only; it agrees with the track width up to 20000.) *)
Theorem timelineWidth_clamp :
  (forall duration zoom,
      timelineWidth duration zoom = Qmin 20000 (Qmax 800 (duration * 60 * zoom))
      /\ 800 <= timelineWidth duration zoom <= 20000
      /\ (duration * 60 * zoom <= 800 -> timelineWidth duration zoom == 800)
      /\ (800 <= duration * 60 * zoom <= 20000 ->
          timelineWidth duration zoom == duration * 60 * zoom)
      /\ (20000 <= duration * 60 * zoom -> timelineWidth duration zoom == 20000)
      /\ (duration * 60 * zoom <= 20000 ->
          AudioPlayer.waveformDisplayWidth duration zoom == timelineWidth duration zoom))
  /\ timelineWidth 120 1 == 7200
  /\ timeToPixel 120 1 60 == 3600.
Proof.
  split; [|split; [reflexivity | reflexivity]].
  intros duration zoom.
  split; [reflexivity|].
  split; [apply timelineWidth_bounds|].
  unfold AudioPlayer.waveformDisplayWidth, timelineWidth.
  repeat split.
  - intro H. rewrite (Q.max_l 800 _) by exact H. apply Q.min_r. lra.
  - intros [H1 H2]. apply timelineWidth_inside; assumption.
  - intro H. apply Q.min_l.
    apply Qle_trans with (duration * 60 * zoom); [exact H | apply Q.le_max_r].
  - intro H. symmetry. apply Q.min_r. apply Q.max_lub; [lra | exact H].
Qed.

Lemma timelineWidth_clamp_witness :
  timelineWidth 1 1 == 800 /\ timelineWidth 20 1 == 20 * 60 * 1
  /\ timelineWidth 1000 1 == 20000.
Proof.
  destruct (proj1 timelineWidth_clamp 1 1) as (_ & _ & H1 & _).
  destruct (proj1 timelineWidth_clamp 20 1) as (_ & _ & _ & H2 & _).
  destruct (proj1 timelineWidth_clamp 1000 1) as (_ & _ & _ & _ & H3 & _).
  split; [apply H1; vm_compute; discriminate|].
  split; [apply H2; split; vm_compute; discriminate|].
  apply H3; vm_compute; discriminate.
Defined.

(** C7: with a zero duration both mappings return 0 for every argument. *)
Theorem zero_duration_maps_to_zero (duration zoom x : Q) :
  duration == 0 ->
  timeToPixel duration zoom x = 0 /\ pixelToTime duration zoom x = 0.
Proof.
  intro H. unfold timeToPixel, pixelToTime.
  rewrite (Qeq_bool_true_of_eq _ _ H). split; reflexivity.
Qed.

Lemma zero_duration_maps_to_zero_witness :
  timeToPixel 0 2 (75 # 2) = 0 /\ pixelToTime 0 2 (75 # 2) = 0.
Proof.
  apply (zero_duration_maps_to_zero 0 2 (75 # 2)). reflexivity.
Defined.

(** ** Sorting *)

Lemma insertByTime_perm (c : StacyCommand) (l : list StacyCommand) :
  Permutation (insertByTime c l) (c :: l).
Proof.
  induction l as [|h t IH]; simpl.
  - apply Permutation_refl.
  - destruct (Qle_bool (time c) (time h)).
    + apply Permutation_refl.
    + apply perm_trans with (h :: c :: t).
      * apply perm_skip. exact IH.
      * apply perm_swap.
Qed.

Lemma sortByTime_perm (l : list StacyCommand) : Permutation (sortByTime l) l.
Proof.
  induction l as [|h t IH]; simpl.
  - apply perm_nil.
  - apply perm_trans with (h :: sortByTime t).
    + apply insertByTime_perm.
    + apply perm_skip. exact IH.
Qed.

Lemma insertByTime_sorted (c : StacyCommand) (l : list StacyCommand) :
  StronglySorted byTime l -> StronglySorted byTime (insertByTime c l).
Proof.
  induction l as [|h t IH]; intro Hs; simpl.
  - constructor; constructor.
  - inversion Hs as [|? ? Ht Hh]; subst.
    destruct (Qle_bool (time c) (time h)) eqn:E.
    + apply Qle_bool_iff in E.
      constructor; [exact Hs|].
      constructor; [exact E|].
      eapply Forall_impl; [|exact Hh].
      intros a Ha. unfold byTime in *. lra.
    + apply Qle_bool_false in E.
      constructor; [apply IH; exact Ht|].
      apply (Permutation_Forall (Permutation_sym (insertByTime_perm c t))).
      constructor; [unfold byTime; lra | exact Hh].
Qed.

Lemma sortByTime_sorted (l : list StacyCommand) : StronglySorted byTime (sortByTime l).
Proof.
  induction l as [|h t IH]; simpl.
  - constructor.
  - apply insertByTime_sorted. exact IH.
Qed.

(** A list already in time order is left as it is: equal times keep
    their order. *)
Lemma sortByTime_sorted_id (l : list StacyCommand) :
  StronglySorted byTime l -> sortByTime l = l.
Proof.
  induction l as [|h t IH]; intro Hs; [reflexivity|].
  inversion Hs as [|? ? Ht Hh]; subst.
  simpl. rewrite (IH Ht).
  destruct t as [|h' t']; [reflexivity|].
  inversion Hh as [|? ? Hle _]; subst.
  simpl. rewrite (proj2 (Qle_bool_iff _ _) Hle). reflexivity.
Qed.

(** ** Dragging *)

(** What the parent's update does to the command list: the list keeps its
    length and stays in time order, every command with the given id is
    there with the new time and its other fields, every other command is
    there unchanged, and nothing else is there. *)
Lemma updateCommand_members (commands : list StacyCommand) (commandId : string) (t : Q) :
  length (updateCommand commands commandId t) = length commands
  /\ StronglySorted byTime (updateCommand commands commandId t)
  /\ (forall c0, In c0 commands -> id c0 = commandId ->
        In {| id := id c0; time := t; type := type c0; parameters := parameters c0 |}
           (updateCommand commands commandId t))
  /\ (forall c, In c commands -> id c <> commandId ->
        In c (updateCommand commands commandId t))
  /\ (forall c, In c (updateCommand commands commandId t) ->
        (In c commands /\ id c <> commandId)
        \/ exists c0, In c0 commands /\ id c0 = commandId
                      /\ c = {| id := id c0; time := t; type := type c0;
                                parameters := parameters c0 |}).
Proof.
  unfold updateCommand.
  set (f := fun cmd => if String.eqb (id cmd) commandId
                       then {| id := id cmd; time := t; type := type cmd;
                               parameters := parameters cmd |}
                       else cmd).
  pose proof (sortByTime_perm (map f commands)) as P.
  split; [rewrite (Permutation_length P); apply length_map|].
  split; [apply sortByTime_sorted|].
  split; [|split].
  - intros c0 Hin Hid. apply (Permutation_in _ (Permutation_sym P)).
    apply in_map_iff. exists c0. split; [|exact Hin].
    unfold f. rewrite (proj2 (String.eqb_eq _ _) Hid). reflexivity.
  - intros c Hin Hid. apply (Permutation_in _ (Permutation_sym P)).
    apply in_map_iff. exists c. split; [|exact Hin].
    unfold f. rewrite (proj2 (String.eqb_neq _ _) Hid). reflexivity.
  - intros c Hin. apply (Permutation_in _ P) in Hin.
    apply in_map_iff in Hin. destruct Hin as (c0 & Hf & Hin0).
    unfold f in Hf. destruct (String.eqb (id c0) commandId) eqn:E.
    + right. exists c0. apply String.eqb_eq in E. auto.
    + left. subst c. apply String.eqb_neq in E. auto.
Qed.

(** C8: while a command is dragged, every pointer move issues an update of
    that command whose time is [pixelToTime (pointerX - dragOffset)]
    clamped into [0, duration]: values outside the range are replaced by
    the nearer bound, values inside are kept, and no move is dropped.
    Applied to the command list, the update keeps the length of the list,
    puts every command with the dragged id at the new time with its other
    fields as they were, keeps every other command as it is, and adds
    nothing.  Releasing the button issues nothing more and ends the drag. *)
Theorem drag_move_updates_time
    (duration zoom clientX rectLeft : Q) (s : DragState) (cmd : StacyCommand)
    (commands : list StacyCommand) :
  isDragging s = true -> dragCommand s = Some cmd ->
  let pointerX := clientX - rectLeft in
  let candidate := pixelToTime duration zoom (pointerX - dragOffset s) in
  let newTime := Qmax 0 (Qmin duration candidate) in
  handleMouseMove duration zoom true clientX rectLeft s = Some (id cmd, newTime)
  /\ 0 <= newTime
  /\ (0 <= duration -> newTime <= duration)
  /\ (0 <= candidate -> candidate <= duration -> newTime == candidate)
  /\ (0 <= duration -> candidate < 0 -> newTime == 0)
  /\ (0 <= duration -> duration < candidate -> newTime == duration)
  /\ (forall c, In c (updateCommand commands (id cmd) newTime) ->
        id c = id cmd -> time c = newTime)
  /\ handleMouseMove duration zoom true clientX rectLeft (handleMouseUp s) = None
  /\ length (updateCommand commands (id cmd) newTime) = length commands
  /\ (forall c0, In c0 commands -> id c0 = id cmd ->
        In {| id := id c0; time := newTime; type := type c0;
              parameters := parameters c0 |}
           (updateCommand commands (id cmd) newTime))
  /\ (forall c, In c commands -> id c <> id cmd ->
        In c (updateCommand commands (id cmd) newTime))
  /\ (forall c, In c (updateCommand commands (id cmd) newTime) ->
        (In c commands /\ id c <> id cmd)
        \/ exists c0, In c0 commands /\ id c0 = id cmd
                      /\ c = {| id := id c0; time := newTime; type := type c0;
                                parameters := parameters c0 |}).
Proof.
  intros Hd Hc pointerX candidate newTime.
  destruct (updateCommand_members commands (id cmd) newTime)
    as (Hlen & _ & Hmoved & Hkept & Honly).
  split.
  { unfold handleMouseMove. rewrite Hd, Hc. reflexivity. }
  split; [apply Q.le_max_l|].
  split; [intro H; apply clamp_bounds; exact H|].
  split; [intros H1 H2; apply clamp_inside; assumption|].
  split.
  { intros H1 H2. unfold newTime.
    apply Q.max_l. apply Qle_trans with candidate; [apply Q.le_min_r | lra]. }
  split.
  { intros H1 H2. unfold newTime.
    rewrite (Q.min_l duration candidate) by lra. apply Q.max_r. exact H1. }
  split.
  { intros c Hin Hid. destruct (Honly c Hin) as [[_ Hne] | (c0 & _ & _ & ->)].
    - contradiction.
    - reflexivity. }
  split; [reflexivity|].
  split; [exact Hlen|]. split; [exact Hmoved|]. split; [exact Hkept | exact Honly].
Qed.

Lemma drag_move_updates_time_witness :
  handleMouseMove 100 (1 # 6) true 210 0 panDrag
  = Some ("pan-1"%string,
          Qmax 0 (Qmin 100 (pixelToTime 100 (1 # 6) (210 - 0 - dragOffset panDrag))))
  /\ In {| id := "pan-1"; type := Pan; parameters := parameters draggedPan;
           time := Qmax 0 (Qmin 100 (pixelToTime 100 (1 # 6)
                                       (210 - 0 - dragOffset panDrag))) |}
        (updateCommand panCommands "pan-1"
           (Qmax 0 (Qmin 100 (pixelToTime 100 (1 # 6) (210 - 0 - dragOffset panDrag)))))
  /\ In (plainCommand "c" 30 On)
        (updateCommand panCommands "pan-1"
           (Qmax 0 (Qmin 100 (pixelToTime 100 (1 # 6) (210 - 0 - dragOffset panDrag)))))
  /\ length (updateCommand panCommands "pan-1"
               (Qmax 0 (Qmin 100 (pixelToTime 100 (1 # 6)
                                    (210 - 0 - dragOffset panDrag))))) = 4%nat.
Proof.
  destruct (drag_move_updates_time 100 (1 # 6) 210 0 panDrag draggedPan panCommands
              eq_refl eq_refl)
    as (Hmove & _ & _ & _ & _ & _ & _ & _ & Hlen & Hmoved & Hkept & _).
  split; [exact Hmove|]. split; [|split].
  - apply (Hmoved draggedPan); [|reflexivity].
    right. right. left. reflexivity.
  - apply Hkept; [|discriminate].
    right. right. right. left. reflexivity.
  - exact Hlen.
Defined.

(** The dragged command among the others: at 20 s it is sorted between
    the commands at 1.05 s and at 30 s. *)
Example drag_scenario_list :
  map id (updateCommand panCommands "pan-1" 20) = ["a"; "b"; "pan-1"; "c"]%string
  /\ map id (updateCommand panCommands "pan-1" 40) = ["a"; "b"; "c"; "pan-1"]%string.
Proof. split; reflexivity. Qed.

(** With 0.1 s per pixel, a pointer at 210 px and an offset of 10 px give
    the time 20. *)
Example drag_scenario :
  pixelToTime 100 (1 # 6) 1 == 1 # 10
  /\ exists newTime,
       handleMouseMove 100 (1 # 6) true 210 0 panDrag = Some ("pan-1"%string, newTime)
       /\ newTime == 20.
Proof.
  split; [reflexivity|].
  eexists. split; reflexivity.
Qed.

(** ** Row layout *)

Lemma covers_iff (c : StacyCommand) (t : Q) :
  covers c t = true <-> time c <= t /\ t < commandEnd c.
Proof.
  unfold covers. rewrite andb_true_iff, Qle_bool_iff, Qltb_true. reflexivity.
Qed.

Lemma endsBefore_no_overlap (a b : StacyCommand) : endsBefore a b -> ~ overlap a b.
Proof.
  intros H (t & Ha & Hb).
  apply covers_iff in Ha. apply covers_iff in Hb.
  unfold endsBefore in H. lra.
Qed.

(** *** Depth of a list of commands at an instant *)

Lemma depth_app (l1 l2 : list StacyCommand) (t : Q) :
  depth (l1 ++ l2) t = (depth l1 t + depth l2 t)%nat.
Proof. unfold depth. rewrite filter_app, length_app. reflexivity. Qed.

Lemma depth_cons (c : StacyCommand) (l : list StacyCommand) (t : Q) :
  depth (c :: l) t = ((if covers c t then 1 else 0) + depth l t)%nat.
Proof. unfold depth. simpl. destruct (covers c t); reflexivity. Qed.

Lemma depth_perm (l1 l2 : list StacyCommand) (t : Q) :
  Permutation l1 l2 -> depth l1 t = depth l2 t.
Proof.
  intro H. induction H as [|x l l' _ IH|x y l|l l' l'' _ IH1 _ IH2].
  - reflexivity.
  - rewrite !depth_cons, IH. reflexivity.
  - rewrite !depth_cons. lia.
  - congruence.
Qed.

Lemma depth_In (c : StacyCommand) (l : list StacyCommand) (t : Q) :
  In c l -> covers c t = true -> (1 <= depth l t)%nat.
Proof.
  induction l as [|h r IH]; intros Hin Hc; [contradiction|].
  rewrite depth_cons. destruct Hin as [-> | Hin].
  - rewrite Hc. lia.
  - specialize (IH Hin Hc). lia.
Qed.

Lemma depth_row_le_1 (row : list StacyCommand) (t : Q) :
  rowOrdered row -> (depth row t <= 1)%nat.
Proof.
  induction row as [|h r IH]; intro Hs; [unfold depth; simpl; lia|].
  inversion Hs as [|? ? Hr Hh]; subst.
  rewrite depth_cons. destruct (covers h t) eqn:E.
  - assert (depth r t = 0%nat) as ->; [|lia].
    unfold depth. apply length_zero_iff_nil.
    clear IH Hr Hs. induction r as [|x r IHr]; [reflexivity|].
    inversion Hh as [|? ? Hx Hrest]; subst. simpl.
    destruct (covers x t) eqn:Ex.
    + exfalso. apply (endsBefore_no_overlap h x Hx). exists t. split; assumption.
    + apply IHr. exact Hrest.
  - specialize (IH Hr). lia.
Qed.

Lemma depth_concat_le (tracks : list (list StacyCommand)) (t : Q) :
  tracksOk tracks -> (depth (concat tracks) t <= length tracks)%nat.
Proof.
  induction tracks as [|row rest IH]; intro H; simpl; [unfold depth; simpl; lia|].
  inversion H as [|? ? [_ Hrow] Hrest]; subst.
  rewrite depth_app. pose proof (depth_row_le_1 row t Hrow). specialize (IH Hrest). lia.
Qed.

Lemma depth_concat_ge (tracks : list (list StacyCommand)) (t : Q) :
  Forall (fun row => exists c, In c row /\ covers c t = true) tracks ->
  (length tracks <= depth (concat tracks) t)%nat.
Proof.
  induction 1 as [|row rest (c & Hin & Hc) _ IH]; simpl; [lia|].
  rewrite depth_app. pose proof (depth_In c row t Hin Hc). lia.
Qed.

(** *** One step of the layout *)

Lemma placeInTrack_some (c : StacyCommand) (tracks tracks' : list (list StacyCommand)) :
  placeInTrack c tracks = Some tracks' ->
  tracksOk tracks -> allBefore tracks (time c) ->
  tracksOk tracks'
  /\ Permutation (concat tracks') (c :: concat tracks)
  /\ length tracks' = length tracks.
Proof.
  revert tracks'. induction tracks as [|row rest IH]; intros tracks' Hp Hok Hb.
  - discriminate Hp.
  - inversion Hok as [|? ? [Hne Hrow] Hrest]; subst.
    unfold allBefore in Hb. simpl in Hb. apply Forall_app in Hb. destruct Hb as [Hbrow Hbrest].
    simpl in Hp.
    assert (Hskip : forall r, option_map (cons row) (placeInTrack c rest) = Some r ->
              tracksOk r /\ Permutation (concat r) (c :: concat (row :: rest))
              /\ length r = length (row :: rest)).
    { intros r Hr. destruct (placeInTrack c rest) as [rest'|] eqn:E; [|discriminate Hr].
      injection Hr as <-.
      destruct (IH rest' eq_refl Hrest Hbrest) as (Hok' & Hperm & Hlen).
      split; [constructor; [split; assumption | exact Hok']|].
      split; [|simpl; congruence].
      simpl. apply perm_trans with (row ++ c :: concat rest).
      - apply Permutation_app_head. exact Hperm.
      - apply Permutation_sym. apply Permutation_middle. }
    destruct (lastOf row) as [lastCommand|] eqn:El; [|apply Hskip; exact Hp].
    destruct (Qle_bool (commandEnd lastCommand) (time c)) eqn:E; [|apply Hskip; exact Hp].
    injection Hp as <-. apply Qle_bool_iff in E.
    split; [|split; [|reflexivity]].
    + constructor; [|exact Hrest].
      split; [intro H; apply app_eq_nil in H; destruct H as [_ H]; discriminate H|].
      apply sorted_snoc; [exact Hrow|].
      pose proof (sorted_last _ _ _ Hrow El) as Hl.
      rewrite Forall_forall in *. intros a Ha.
      destruct (Hl a Ha) as [-> | Hal]; [exact E|].
      specialize (Hbrow lastCommand (lastOf_In _ _ El)).
      unfold endsBefore in *. simpl in Hbrow. lra.
    + simpl. rewrite <- app_assoc. simpl.
      apply Permutation_sym. apply perm_trans with (row ++ c :: concat rest).
      * apply Permutation_middle.
      * apply Permutation_refl.
Qed.

Lemma placeInTrack_none (c : StacyCommand) (tracks : list (list StacyCommand)) :
  placeInTrack c tracks = None -> tracksOk tracks ->
  Forall (fun row => exists l, In l row /\ time c < commandEnd l) tracks.
Proof.
  induction tracks as [|row rest IH]; intros Hp Hok; [constructor|].
  inversion Hok as [|? ? [Hne Hrow] Hrest]; subst.
  simpl in Hp.
  destruct (lastOf_nonempty row Hne) as [l Hl]. rewrite Hl in Hp.
  destruct (Qle_bool (commandEnd l) (time c)) eqn:E; [discriminate Hp|].
  apply Qle_bool_false in E.
  destruct (placeInTrack c rest) eqn:Er; [discriminate Hp|].
  constructor; [|apply IH; [reflexivity | exact Hrest]].
  exists l. split; [apply lastOf_In; exact Hl | exact E].
Qed.

Lemma addToTracks_ok (c : StacyCommand) (tracks : list (list StacyCommand)) :
  tracksOk tracks -> allBefore tracks (time c) ->
  tracksOk (addToTracks tracks c)
  /\ Permutation (concat (addToTracks tracks c)) (c :: concat tracks).
Proof.
  intros Hok Hb. unfold addToTracks.
  destruct (placeInTrack c tracks) as [tracks'|] eqn:E.
  - destruct (placeInTrack_some _ _ _ E Hok Hb) as (H1 & H2 & _). split; assumption.
  - split.
    + apply Forall_app. split; [exact Hok|].
      constructor; [|constructor].
      split; [discriminate | constructor; constructor].
    + rewrite concat_app. simpl.
      apply Permutation_sym. apply Permutation_cons_append.
Qed.

Lemma addToTracks_clique (c : StacyCommand) (tracks : list (list StacyCommand)) :
  tracksOk tracks -> allBefore tracks (time c) -> 0 < getCommandDuration c ->
  cliqueReached tracks -> cliqueReached (addToTracks tracks c).
Proof.
  intros Hok Hb Hpos Hcl. right. unfold addToTracks.
  destruct (placeInTrack c tracks) as [tracks'|] eqn:E.
  - destruct (placeInTrack_some _ _ _ E Hok Hb) as (_ & Hperm & Hlen).
    destruct Hcl as [-> | (w & Hw & Hd)]; [discriminate E|].
    exists w. split.
    + apply (Permutation_in _ (Permutation_sym Hperm)). right. exact Hw.
    + rewrite Hlen, (depth_perm _ _ (time w) Hperm), depth_cons. lia.
  - exists c. split.
    + rewrite concat_app. apply in_or_app. right. simpl. left. reflexivity.
    + rewrite concat_app, depth_app, length_app. simpl.
      assert (Hself : covers c (time c) = true).
      { apply covers_iff. unfold commandEnd. lra. }
      rewrite depth_cons, Hself.
      assert (length tracks <= depth (concat tracks) (time c))%nat; [|simpl; lia].
      apply depth_concat_ge.
      pose proof (placeInTrack_none _ _ E Hok) as Hn.
      unfold allBefore in Hb. rewrite Forall_forall in Hb, Hn.
      apply Forall_forall. intros row Hrow.
      destruct (Hn row Hrow) as (l & Hin & Hlt).
      exists l. split; [exact Hin|].
      apply covers_iff. split; [|exact Hlt].
      apply Hb. apply in_concat. exists row. split; assumption.
Qed.

(** *** The whole layout *)

Lemma layout_fold (l : list StacyCommand) :
  forall tracks,
    StronglySorted byTime l -> tracksOk tracks ->
    (forall c, In c l -> allBefore tracks (time c)) ->
    tracksOk (fold_left addToTracks l tracks)
    /\ Permutation (concat (fold_left addToTracks l tracks)) (concat tracks ++ l).
Proof.
  induction l as [|c rest IH]; intros tracks Hs Hok Hb; simpl.
  - split; [exact Hok | rewrite app_nil_r; apply Permutation_refl].
  - inversion Hs as [|? ? Hrest Hc]; subst.
    destruct (addToTracks_ok c tracks Hok (Hb c (or_introl eq_refl))) as [Hok1 Hperm1].
    assert (Hb1 : forall c', In c' rest -> allBefore (addToTracks tracks c) (time c')).
    { intros c' Hin. unfold allBefore.
      apply (Permutation_Forall (Permutation_sym Hperm1)).
      constructor.
      - rewrite Forall_forall in Hc. apply Hc. exact Hin.
      - apply Hb. right. exact Hin. }
    destruct (IH _ Hrest Hok1 Hb1) as [Hok2 Hperm2].
    split; [exact Hok2|].
    apply perm_trans with (concat (addToTracks tracks c) ++ rest); [exact Hperm2|].
    apply perm_trans with ((c :: concat tracks) ++ rest).
    + apply Permutation_app_tail. exact Hperm1.
    + simpl. apply Permutation_middle.
Qed.

Lemma layout_fold_clique (l : list StacyCommand) :
  forall tracks,
    StronglySorted byTime l -> tracksOk tracks ->
    (forall c, In c l -> allBefore tracks (time c)) ->
    (forall c, In c l -> 0 < getCommandDuration c) ->
    cliqueReached tracks ->
    cliqueReached (fold_left addToTracks l tracks).
Proof.
  induction l as [|c rest IH]; intros tracks Hs Hok Hb Hpos Hcl; simpl; [exact Hcl|].
  inversion Hs as [|? ? Hrest Hc]; subst.
  destruct (addToTracks_ok c tracks Hok (Hb c (or_introl eq_refl))) as [Hok1 Hperm1].
  apply IH.
  - exact Hrest.
  - exact Hok1.
  - intros c' Hin. unfold allBefore.
    apply (Permutation_Forall (Permutation_sym Hperm1)).
    constructor.
    + rewrite Forall_forall in Hc. apply Hc. exact Hin.
    + apply Hb. right. exact Hin.
  - intros c' Hin. apply Hpos. right. exact Hin.
  - apply addToTracks_clique.
    + exact Hok.
    + apply Hb. left. reflexivity.
    + apply Hpos. left. reflexivity.
    + exact Hcl.
Qed.

Lemma list_max_ge (l : list nat) (n : nat) : In n l -> (n <= list_max l)%nat.
Proof.
  intro H. pose proof (proj1 (list_max_le l (list_max l)) (Nat.le_refl _)) as Hall.
  rewrite Forall_forall in Hall. apply Hall. exact H.
Qed.

(** C1, as amended: the rows of a lane hold exactly the lane's commands,
    no two commands of a row overlap, and no instant is covered by more
    commands than there are rows; when every command of the lane has a
    positive duration, the number of rows is the largest number of commands
    overlapping at one instant. *)
Theorem organizeCommandsIntoTracks_rows (commands : list StacyCommand) (lt : LightType) :
  let rows := organizeCommandsIntoTracks commands lt in
  Permutation (concat rows) (lane commands lt)
  /\ Forall (fun row => row <> [] /\ ForallOrdPairs (fun a b => ~ overlap a b) row) rows
  /\ (forall t, (depth (lane commands lt) t <= length rows)%nat)
  /\ ((forall c, In c (lane commands lt) -> 0 < getCommandDuration c) ->
      length rows = cliqueNumber (lane commands lt)
      /\ exists t, depth (lane commands lt) t = length rows).
Proof.
  intro rows. subst rows.
  assert (Hsortperm : Permutation (lightCommands commands lt) (lane commands lt))
    by apply sortByTime_perm.
  destruct (layout_fold (lightCommands commands lt) []
              (sortByTime_sorted _) (Forall_nil _)
              (fun c _ => Forall_nil _)) as [Hok Hperm].
  pose proof (layout_fold_clique (lightCommands commands lt) []
                (sortByTime_sorted _) (Forall_nil _)
                (fun c _ => Forall_nil _)) as Hclique.
  fold (organizeCommandsIntoTracks commands lt) in Hok, Hperm, Hclique.
  remember (organizeCommandsIntoTracks commands lt) as rows eqn:Hr. clear Hr.
  simpl in Hperm.
  assert (Hrows : Permutation (concat rows) (lane commands lt))
    by (eapply perm_trans; eassumption).
  assert (Hupper : forall t, (depth (lane commands lt) t <= length rows)%nat).
  { intro t. rewrite <- (depth_perm _ _ t Hrows). apply depth_concat_le. exact Hok. }
  split; [exact Hrows|].
  split.
  { eapply Forall_impl; [|exact Hok].
    intros row [Hne Hrow]. split; [exact Hne|].
    clear Hne. induction Hrow as [|a r Hr IH Ha]; constructor.
    - eapply Forall_impl; [|exact Ha]. intros b. apply endsBefore_no_overlap.
    - exact IH. }
  split; [exact Hupper|].
  intro Hpos.
  assert (Hcl : cliqueReached rows).
  { apply Hclique.
    - intros c Hin. apply Hpos. apply (Permutation_in _ Hsortperm). exact Hin.
    - left. reflexivity. }
  destruct Hcl as [Hnil | (w & Hw & Hd)].
  - subst rows. simpl in Hrows. apply Permutation_nil in Hrows.
    rewrite Hrows. split; [reflexivity | exists 0; reflexivity].
  - rewrite (depth_perm _ _ (time w) Hrows) in Hd.
    pose proof (Hupper (time w)) as Hu.
    split; [|exists (time w); lia].
    apply Nat.le_antisymm.
    + apply Nat.le_trans with (depth (lane commands lt) (time w)); [exact Hd|].
      apply list_max_ge. apply in_map_iff. exists w. split; [reflexivity|].
      apply (Permutation_in _ Hrows). exact Hw.
    + apply list_max_le. apply Forall_forall. intros n Hn.
      apply in_map_iff in Hn. destruct Hn as (c & <- & _). apply Hupper.
Qed.

Example scenarioB_rows :
  organizeCommandsIntoTracks scenarioB HeadsA
  = [[plainCommand "a" 1 Pan; plainCommand "c" 2 On]; [plainCommand "b" (105 # 100) Tilt]].
Proof. reflexivity. Qed.

Lemma organizeCommandsIntoTracks_rows_witness :
  length (organizeCommandsIntoTracks scenarioB HeadsA) = cliqueNumber (lane scenarioB HeadsA).
Proof.
  apply (proj2 (proj2 (proj2 (organizeCommandsIntoTracks_rows scenarioB HeadsA)))).
  intros c Hin. simpl in Hin.
  destruct Hin as [<- | [<- | [<- | []]]]; reflexivity.
Defined.

(** C1 as stated fails: the fade of duration 0 covers no instant, yet it is
    given a row of its own, so there are two rows while at most one command
    is active at any instant. *)
Lemma organizeCommandsIntoTracks_exceeds_clique :
  length (organizeCommandsIntoTracks zeroFade HeadsA) = 2%nat
  /\ cliqueNumber (lane zeroFade HeadsA) = 1%nat
  /\ forall t, (depth (lane zeroFade HeadsA) t < length (organizeCommandsIntoTracks zeroFade HeadsA))%nat.
Proof.
  split; [reflexivity|]. split; [reflexivity|].
  intro t. change (length (organizeCommandsIntoTracks zeroFade HeadsA)) with 2%nat.
  change (lane zeroFade HeadsA) with zeroFade. unfold zeroFade.
  rewrite !depth_cons.
  assert (Hfade : covers (fadeCommand 1 (Some 0)) t = false).
  { destruct (covers (fadeCommand 1 (Some 0)) t) eqn:E; [|reflexivity].
    apply covers_iff in E.
    change (1 <= t /\ t < 1 + 0) in E. lra. }
  rewrite Hfade. unfold depth. simpl.
  destruct (covers (plainCommand "cue" 0 Cue) t); lia.
Qed.

End TimelineSpec.

Module AudioPlayerSpec.
Import AudioPlayer.

Lemma sqrtUp_zero (x : Q) : x == 0 -> sqrtUp x == 0.
Proof.
  intro H. unfold Qeq in H. simpl in H.
  assert (Hn : Qnum x = 0%Z) by lia.
  unfold sqrtUp. rewrite Hn. reflexivity.
Qed.

(** ** Block count *)

(** C2 as stated fails: a buffer of 1000 samples gets no block at all, and
    the waveform is empty. *)
Lemma blockCount_short_buffer_is_zero :
  blockCount shortBuffer = 0%nat
  /\ blockCount shortBuffer <> 1%nat
  /\ channelData shortBuffer <> []
  /\ analyse sqrtUp shortBuffer = ([], []).
Proof.
  split; [reflexivity|]. split; [discriminate|]. split; [discriminate | reflexivity].
Qed.

Lemma runLoop_S (sqrt : Q -> Q) (audioBuffer : AudioBuffer) (n : nat) :
  runLoop sqrt audioBuffer (S n)
  = loopBody sqrt audioBuffer (blockCount audioBuffer) (blockLength audioBuffer)
      (runLoop sqrt audioBuffer n) n.
Proof.
  unfold runLoop. rewrite seq_S, fold_left_app. reflexivity.
Qed.

Lemma waveformPoints_runLoop (sqrt : Q -> Q) (audioBuffer : AudioBuffer) (n : nat) :
  waveformPoints (runLoop sqrt audioBuffer n)
  = map (blockAmplitude sqrt (channelData audioBuffer) (blockLength audioBuffer)) (seq 0 n).
Proof.
  induction n as [|n IH]; [reflexivity|].
  rewrite runLoop_S, seq_S, map_app. simpl. rewrite IH. reflexivity.
Qed.

Lemma normalize_length (points : list Q) : length (normalize points) = length points.
Proof. unfold normalize. apply length_map. Qed.

Lemma analyse_length (sqrt : Q -> Q) (audioBuffer : AudioBuffer) :
  length (fst (analyse sqrt audioBuffer)) = blockCount audioBuffer.
Proof.
  unfold analyse. simpl.
  rewrite normalize_length, waveformPoints_runLoop, length_map, length_seq. reflexivity.
Qed.

(** C2, as amended: the number of blocks is min(1500, floor(n / 1024))
    without any guard; a buffer of fewer than 1024 samples gets 0 blocks
    and an empty waveform and beat list, and the waveform is non-empty
    exactly from 1024 samples on. *)
Theorem blockCount_formula (sqrt : Q -> Q) (audioBuffer : AudioBuffer) :
  let n := length (channelData audioBuffer) in
  blockCount audioBuffer = Nat.min 1500 (n / 1024)
  /\ length (fst (analyse sqrt audioBuffer)) = blockCount audioBuffer
  /\ ((n < 1024)%nat ->
        blockCount audioBuffer = 0%nat /\ analyse sqrt audioBuffer = ([], []))
  /\ ((1024 <= n)%nat -> (1 <= blockCount audioBuffer)%nat).
Proof.
  intro n. split; [reflexivity|]. split; [apply analyse_length|]. split.
  - intro H.
    assert (Hz : blockCount audioBuffer = 0%nat).
    { unfold blockCount. fold n. rewrite (Nat.div_small n 1024 H). reflexivity. }
    split; [exact Hz|]. unfold analyse. rewrite Hz. reflexivity.
  - intro H. unfold blockCount. fold n.
    assert (1 <= n / 1024)%nat; [|lia].
    apply Nat.div_le_lower_bound; lia.
Qed.

Lemma blockCount_formula_witness :
  blockCount shortBuffer = 0%nat /\ analyse sqrtUp shortBuffer = ([], []).
Proof.
  apply (proj1 (proj2 (proj2 (blockCount_formula sqrtUp shortBuffer)))).
  unfold shortBuffer. cbn [channelData]. rewrite repeat_length. lia.
Defined.

(** ** Failure of the analysis *)

Lemma tryBlock_throws (sqrt : Q -> Q) (env : Platform) :
  tryBlock sqrt env = Throw <->
  createContext env = Throw \/ readBytes env = Throw
  \/ decodeAudioData env = Throw \/ closeContext env = Throw.
Proof.
  unfold tryBlock, bind.
  destruct (createContext env), (readBytes env), (decodeAudioData env),
    (closeContext env); split; intro H;
    try discriminate H; try reflexivity; auto;
    repeat (destruct H as [H | H]; try discriminate H); discriminate H.
Qed.

(** C6: when a step of the try block fails (creating the context, reading
    or decoding the audio, closing the context), the caller gets no
    exception: the waveform becomes 100 values all equal to 0.1 and the
    beat list becomes empty. *)
Theorem generateAdvancedWaveform_fallback
    (sqrt : Q -> Q) (env : Platform) (st : PlayerState) :
  tryBlock sqrt env = Throw ->
  let st' := generateAdvancedWaveform sqrt true env st in
  waveformData st' = repeat (1 # 10) 100
  /\ length (waveformData st') = 100%nat
  /\ Forall (fun v => v = 1 # 10) (waveformData st')
  /\ beatData st' = []
  /\ isLoadingWaveform st' = false.
Proof.
  intros H st'. subst st'. unfold generateAdvancedWaveform.
  cbn [negb]. rewrite H. cbn [waveformData beatData isLoadingWaveform].
  split; [reflexivity|]. split; [apply repeat_length|].
  split; [|split; reflexivity].
  apply Forall_forall. intros v Hv. apply (repeat_spec _ _ _ Hv).
Qed.

Lemma generateAdvancedWaveform_fallback_witness :
  waveformData (generateAdvancedWaveform sqrtUp true undecodable emptyPlayer)
  = repeat (1 # 10) 100.
Proof.
  apply (generateAdvancedWaveform_fallback sqrtUp undecodable emptyPlayer).
  reflexivity.
Defined.

(** ** Scrolling and auto-follow *)

Local Open Scope Z_scope.

Lemma run_snoc (trace : list (Z * Event)) (e : Z * Event) :
  run (trace ++ [e]) = step (run trace) e.
Proof. unfold run. rewrite fold_left_app. reflexivity. Qed.

Lemma lastScroll_snoc (trace : list (Z * Event)) (e : Z * Event) :
  lastScroll (trace ++ [e])
  = match snd e with
    | Scroll => Some (fst e)
    | _ => lastScroll trace
    end.
Proof. unfold lastScroll. rewrite fold_left_app. reflexivity. Qed.

Lemma step_inv (trace : list (Z * Event)) (s : ScrollState) (e : Z * Event) :
  scrollInv trace s -> scrollInv (trace ++ [e]) (step s e).
Proof.
  destruct e as [now ev]. destruct s as [flag last pending].
  unfold scrollInv, step. rewrite lastScroll_snoc. simpl.
  destruct ev as [| |duration mounted]; simpl.
  - (* Scroll *)
    unfold handleScroll, resetEffect. simpl.
    destruct flag; simpl.
    + intros [_ Hp]. split; [reflexivity|].
      destruct (last =? now) eqn:E; simpl; [|reflexivity].
      apply Z.eqb_eq in E. subst last. exact Hp.
    + intros _. split; reflexivity.
  - (* TimeoutFires *)
    unfold timeoutFires. simpl.
    destruct flag; simpl.
    + intros [Hl Hp]. rewrite Hp.
      destruct (last + 2100 <=? now) eqn:E; simpl; [|split; [exact Hl | reflexivity]].
      apply Z.leb_le in E.
      destruct (now - last >? 2000) eqn:E2; simpl; [reflexivity|].
      rewrite Z.gtb_ltb in E2. apply Z.ltb_ge in E2. lia.
    + intros ->. reflexivity.
  - (* SeekClick *)
    unfold handleSeek.
    destruct (Qeq_bool duration 0); [trivial|].
    destruct mounted; simpl; [|trivial].
    unfold resetEffect. simpl.
    destruct flag; simpl.
    + intros _. reflexivity.
    + intros Hp. rewrite Z.eqb_refl. simpl. exact Hp.
Qed.

Lemma run_inv (trace : list (Z * Event)) : scrollInv trace (run trace).
Proof.
  induction trace as [|e trace IH] using rev_ind.
  - reflexivity.
  - rewrite run_snoc. apply step_inv. exact IH.
Qed.

(** Without a loaded track the auto-scroll effect does nothing, whatever
    the scroll state. *)
Lemma autoScroll_needs_duration (isPlaying : bool) (s : ScrollState) (mounted : bool)
    (duration zoom currentTime containerWidth currentScrollLeft : Q) :
  (duration == 0)%Q ->
  autoScroll isPlaying s mounted duration zoom currentTime containerWidth currentScrollLeft
  = None.
Proof.
  intro H. unfold autoScroll. rewrite (Qeq_bool_true_of_eq _ _ H).
  rewrite !orb_true_r. reflexivity.
Qed.

(** The playhead outside the margins of the visible part is centred. *)
Lemma autoScroll_centres (s : ScrollState)
    (duration zoom currentTime containerWidth currentScrollLeft : Q) :
  isUserScrollingWaveform s = false -> ~ (duration == 0)%Q ->
  let playheadPosition := ((currentTime / duration) * waveformDisplayWidth duration zoom)%Q in
  (playheadPosition < currentScrollLeft + containerWidth * (1 # 10)
   \/ currentScrollLeft + containerWidth - containerWidth * (1 # 10) < playheadPosition)%Q ->
  autoScroll true s true duration zoom currentTime containerWidth currentScrollLeft
  = Some (Qmax 0 (playheadPosition - containerWidth / 2)%Q).
Proof.
  intros Hs Hd playheadPosition Hout. unfold autoScroll. rewrite Hs.
  destruct (Qeq_bool duration 0) eqn:E; [apply Qeq_bool_iff in E; contradiction|].
  cbn [negb orb]. fold playheadPosition.
  destruct Hout as [H | H]; apply Qltb_true in H; rewrite H.
  - reflexivity.
  - rewrite orb_true_r. reflexivity.
Qed.

(** C9: a scroll event suspends auto-follow at once (the auto-scroll
    effect asks for nothing from then on); the timer started by
    the latest scroll event is due 2.1 s after it, does nothing before,
    and resumes auto-follow when it fires, so auto-follow is resumed by the
    timer only when more than 2 s have passed since the latest scroll
    event; a seek on a loaded track resumes auto-follow at once, whatever
    the time of the latest scroll event. *)
Theorem scroll_state_machine (trace : list (Z * Event)) (now : Z) (duration : Q) :
  isUserScrollingWaveform (run trace) = true ->
  ~ (duration == 0)%Q ->
  (forall s, isUserScrollingWaveform (handleScroll now s) = true
             /\ lastWaveformScrollTime (handleScroll now s) = now
             /\ forall isPlaying mounted d zoom currentTime containerWidth scrollLeft,
                 autoScroll isPlaying (handleScroll now s) mounted d zoom currentTime
                   containerWidth scrollLeft = None)
  /\ (exists t,
        lastScroll trace = Some t
        /\ timeout (run trace) = Some (t + 2100)
        /\ (now < t + 2100 -> timeoutFires now (run trace) = run trace)
        /\ (t + 2100 <= now ->
            isUserScrollingWaveform (timeoutFires now (run trace)) = false)
        /\ (isUserScrollingWaveform (timeoutFires now (run trace)) = false ->
            now - t > 2000))
  /\ (forall s, isUserScrollingWaveform (handleSeek now duration true s) = false)
  /\ isUserScrollingWaveform (run (trace ++ [(now, SeekClick duration true)])) = false.
Proof.
  intros Hflag Hdur.
  assert (Hseek : forall s, isUserScrollingWaveform (handleSeek now duration true s) = false).
  { intro s. unfold handleSeek.
    destruct (Qeq_bool duration 0) eqn:E; [apply Qeq_bool_iff in E; contradiction|].
    reflexivity. }
  split.
  { intro s. split; [reflexivity|]. split; [reflexivity|].
    intros. unfold autoScroll. cbn [handleScroll resetEffect isUserScrollingWaveform].
    rewrite orb_true_r. reflexivity. }
  split; [|split; [exact Hseek | rewrite run_snoc; apply Hseek]].
  pose proof (run_inv trace) as Hinv. unfold scrollInv in Hinv.
  rewrite Hflag in Hinv. destruct Hinv as [Hl Hp].
  exists (lastWaveformScrollTime (run trace)).
  split; [exact Hl|]. split; [exact Hp|].
  unfold timeoutFires. rewrite Hp.
  split; [|split].
  - intro H. apply Z.leb_gt in H. rewrite H. reflexivity.
  - intro H. pose proof H as H'. apply Z.leb_le in H'. rewrite H'.
    destruct (now - lastWaveformScrollTime (run trace) >? 2000) eqn:E; [reflexivity|].
    rewrite Z.gtb_ltb in E. apply Z.ltb_ge in E. lia.
  - destruct (lastWaveformScrollTime (run trace) + 2100 <=? now) eqn:E.
    + apply Z.leb_le in E. intros _. lia.
    + rewrite Hflag. discriminate.
Qed.

Lemma scroll_state_machine_witness :
  isUserScrollingWaveform (run twoScrolls) = true
  /\ isUserScrollingWaveform (timeoutFires 3100 (run twoScrolls)) = false
  /\ timeoutFires 2500 (run twoScrolls) = run twoScrolls
  /\ isUserScrollingWaveform (run (twoScrolls ++ [(1200, SeekClick 120 true)])) = false.
Proof.
  pose proof (scroll_state_machine twoScrolls 3100 120 eq_refl) as H1.
  pose proof (scroll_state_machine twoScrolls 2500 120 eq_refl) as H2.
  pose proof (scroll_state_machine twoScrolls 1200 120 eq_refl) as H3.
  assert (Hd : ~ (120 == 0)%Q) by (intro H; discriminate H).
  destruct (H1 Hd) as (_ & (t1 & Ht1 & _ & _ & Hfire & _) & _).
  destruct (H2 Hd) as (_ & (t2 & Ht2 & _ & Hearly & _) & _).
  destruct (H3 Hd) as (_ & _ & _ & Hseek).
  injection Ht1 as <-. injection Ht2 as <-.
  split; [reflexivity|].
  split; [apply Hfire; lia|].
  split; [apply Hearly; lia | exact Hseek].
Defined.

Local Close Scope Z_scope.

(** ** Beat detection *)

Section Beats.
Variable sqrt : Q -> Q.
Variable audioBuffer : AudioBuffer.

Lemma ofNat_le (i j : nat) : (i <= j)%nat -> ofNat i <= ofNat j.
Proof.
  intro H. unfold ofNat. rewrite <- Zle_Qle. lia.
Qed.

Lemma ofNat_nonneg (i : nat) : 0 <= ofNat i.
Proof. apply (ofNat_le 0 i). lia. Qed.

Lemma beatTime_mono (i j : nat) :
  0 <= duration audioBuffer -> (i <= j)%nat ->
  beatTime audioBuffer i <= beatTime audioBuffer j.
Proof.
  intros Hd Hij. unfold beatTime.
  apply Qmult_le_compat_r; [|exact Hd].
  unfold Qdiv. apply Qmult_le_compat_r; [apply ofNat_le; exact Hij|].
  apply Qinv_le_0_compat. apply ofNat_nonneg.
Qed.

Lemma beats_runLoop_S (n : nat) :
  let st := runLoop sqrt audioBuffer n in
  let energy := blockEnergy sqrt (channelData audioBuffer) (blockLength audioBuffer) n in
  beats (runLoop sqrt audioBuffer (S n))
  = beats st ++
    (if Qltb (previousEnergy st * beatThreshold) energy && Qltb (1 # 10) energy
     then [{| time := beatTime audioBuffer n;
              strength := divide energy (previousEnergy st) |}]
     else []).
Proof.
  intros st energy. rewrite runLoop_S. unfold loopBody.
  cbn [beats]. fold st energy.
  destruct (Qltb (previousEnergy st * beatThreshold) energy && Qltb (1 # 10) energy).
  - reflexivity.
  - rewrite app_nil_r. reflexivity.
Qed.

Lemma beats_invariant (n : nat) :
  0 <= duration audioBuffer ->
  StronglySorted beatOrder (beats (runLoop sqrt audioBuffer n))
  /\ Forall (fun b => exists i, (i < n)%nat /\ emittedAt sqrt audioBuffer i b)
       (beats (runLoop sqrt audioBuffer n)).
Proof.
  intro Hd. induction n as [|n [IHs IHf]].
  - split; constructor.
  - rewrite beats_runLoop_S.
    destruct (Qltb (previousEnergy (runLoop sqrt audioBuffer n) * beatThreshold)
                   (blockEnergy sqrt (channelData audioBuffer) (blockLength audioBuffer) n)
              && Qltb (1 # 10) (blockEnergy sqrt (channelData audioBuffer) (blockLength audioBuffer) n)) eqn:E.
    + apply andb_true_iff in E. destruct E as [E1 E2].
      apply Qltb_true in E1. apply Qltb_true in E2.
      split.
      * apply sorted_snoc; [exact IHs|].
        eapply Forall_impl; [|exact IHf].
        intros b (i & Hi & Ht & _). unfold beatOrder. cbn [time]. rewrite Ht.
        apply beatTime_mono; [exact Hd | lia].
      * apply Forall_app. split.
        -- eapply Forall_impl; [|exact IHf].
           intros b (i & Hi & Hb). exists i. split; [lia | exact Hb].
        -- constructor; [|constructor].
           exists n. split; [lia|].
           unfold emittedAt. cbn [time strength]. repeat split; assumption.
    + rewrite app_nil_r. split; [exact IHs|].
      eapply Forall_impl; [|exact IHf].
      intros b (i & Hi & Hb). exists i. split; [lia | exact Hb].
Qed.

Lemma ratio_above_one (energy previous : Q) :
  0 < previous -> previous * beatThreshold < energy ->
  divide energy previous = Finite (energy / previous) /\ 1 < energy / previous.
Proof.
  intros Hp Hr. unfold beatThreshold in Hr. split.
  - unfold divide. destruct (Qeq_bool previous 0) eqn:E; [|reflexivity].
    apply Qeq_bool_iff in E. lra.
  - apply Qlt_shift_div_l; [exact Hp | lra].
Qed.

(** C5: the beats come out in ascending order of time, and a beat found
    while the smoothed previous energy was positive has the strength
    energy / previousEnergy, which is greater than 1. *)
Theorem beats_ascending_and_strong :
  0 <= duration audioBuffer ->
  let found := snd (analyse sqrt audioBuffer) in
  StronglySorted (fun a b => time a <= time b) found
  /\ (forall b, In b found ->
        exists i,
          (i < (blockCount audioBuffer))%nat
          /\ emittedAt sqrt audioBuffer i b
          /\ (0 < previousEnergy (runLoop sqrt audioBuffer i) ->
              strength b
              = Finite (blockEnergy sqrt (channelData audioBuffer) (blockLength audioBuffer) i
                        / previousEnergy (runLoop sqrt audioBuffer i))
              /\ 1 < blockEnergy sqrt (channelData audioBuffer) (blockLength audioBuffer) i
                     / previousEnergy (runLoop sqrt audioBuffer i))).
Proof.
  intros Hd found.
  destruct (beats_invariant (blockCount audioBuffer) Hd) as [Hs Hf].
  split; [exact Hs|].
  intros b Hb. rewrite Forall_forall in Hf.
  destruct (Hf b Hb) as (i & Hi & He).
  exists i. split; [exact Hi|]. split; [exact He|].
  intro Hp. destruct He as (_ & Hstr & Hratio & _).
  rewrite Hstr. apply ratio_above_one; assumption.
Qed.
End Beats.

(** ** Waveform *)

Lemma Qabs_pos_of_nonzero (x : Q) : ~ x == 0 -> 0 < Qabs x.
Proof.
  intro H. destruct (Q_dec x 0) as [[Hlt | Hgt] | Heq]; [| |contradiction].
  - rewrite (Qabs_neg x) by lra. lra.
  - rewrite (Qabs_pos x) by lra. exact Hgt.
Qed.

Lemma Qmax_is_arg (a b : Q) : Qmax a b = a \/ Qmax a b = b.
Proof.
  unfold Qmax, GenericMinMax.gmax. destruct (a ?= b); auto.
Qed.

Section BlockSums.
Variable rawData : list Q.

Lemma peak_fold_ge (js : list nat) (acc : Q * Q) :
  fst acc <= fst (fold_left (sumStep rawData) js acc)
  /\ forall j, In j js -> Qabs (nth j rawData 0) <= fst (fold_left (sumStep rawData) js acc).
Proof.
  revert acc. induction js as [|j js IH]; intro acc; simpl.
  - split; [lra | contradiction].
  - destruct (IH (sumStep rawData acc j)) as [H1 H2].
    assert (Ha : fst acc <= fst (sumStep rawData acc j)) by apply Q.le_max_l.
    assert (Hb : Qabs (nth j rawData 0) <= fst (sumStep rawData acc j)) by apply Q.le_max_r.
    split; [lra|].
    intros k [<- | Hk]; [lra | apply H2; exact Hk].
Qed.

Lemma sums_fold_zero (js : list nat) (acc : Q * Q) :
  fst acc == 0 -> snd acc == 0 ->
  (forall j, In j js -> nth j rawData 0 == 0) ->
  fst (fold_left (sumStep rawData) js acc) == 0 /\ snd (fold_left (sumStep rawData) js acc) == 0.
Proof.
  revert acc. induction js as [|j js IH]; intros acc Hp Hs Hz; simpl.
  - split; assumption.
  - apply IH.
    + assert (Hj : nth j rawData 0 == 0) by (apply Hz; left; reflexivity).
      unfold sumStep. cbn [fst].
      assert (Habs : Qabs (nth j rawData 0) == 0) by (rewrite Hj; reflexivity).
      destruct (Q.max_spec (fst acc) (Qabs (nth j rawData 0))) as [[_ ->] | [_ ->]];
        assumption.
    + assert (Hj : nth j rawData 0 == 0) by (apply Hz; left; reflexivity).
      unfold sumStep. cbn [snd]. rewrite Hs, Hj. reflexivity.
    + intros k Hk. apply Hz. right. exact Hk.
Qed.

Lemma blockSums_peak (blockStart blockEnd j : nat) :
  0 <= fst (blockSums rawData blockStart blockEnd)
  /\ ((blockStart <= j < blockEnd)%nat ->
      Qabs (nth j rawData 0) <= fst (blockSums rawData blockStart blockEnd)).
Proof.
  unfold blockSums.
  destruct (peak_fold_ge (seq blockStart (blockEnd - blockStart)) (0, 0)) as [H1 H2].
  split; [exact H1|].
  intro Hj. apply H2. apply in_seq. lia.
Qed.

Lemma blockSums_zero (blockStart blockEnd : nat) :
  (forall j, (blockStart <= j < blockEnd)%nat -> nth j rawData 0 == 0) ->
  fst (blockSums rawData blockStart blockEnd) == 0
  /\ snd (blockSums rawData blockStart blockEnd) == 0.
Proof.
  intro Hz. unfold blockSums.
  apply (sums_fold_zero (seq blockStart (blockEnd - blockStart)) (0, 0)).
  - reflexivity.
  - reflexivity.
  - intros j Hj. apply in_seq in Hj. apply Hz. lia.
Qed.
End BlockSums.

Lemma blockAmplitude_nonneg (sqrt : Q -> Q) (rawData : list Q) (blockSize i : nat) :
  0 <= blockAmplitude sqrt rawData blockSize i.
Proof.
  unfold blockAmplitude.
  eapply Qle_trans; [|apply Q.le_max_l].
  apply (proj1 (blockSums_peak rawData _ _ 0%nat)).
Qed.

(** *** Math.max and the normalisation *)

Lemma mathMax_from (values : list Q) (a : Q) :
  exists m,
    fold_left (fun acc v => match acc with
                            | None => Some v
                            | Some m => Some (Qmax m v)
                            end) values (Some a) = Some m
    /\ (m = a \/ In m values) /\ a <= m /\ Forall (fun v => v <= m) values.
Proof.
  revert a. induction values as [|v values IH]; intro a; simpl.
  - exists a. split; [reflexivity|]. split; [left; reflexivity|].
    split; [lra | constructor].
  - destruct (IH (Qmax a v)) as (m & Hm & Hin & Hle & Hall).
    exists m. split; [exact Hm|].
    assert (Ha : a <= Qmax a v) by apply Q.le_max_l.
    assert (Hv : v <= Qmax a v) by apply Q.le_max_r.
    split; [|split; [lra | constructor; [lra | exact Hall]]].
    destruct Hin as [-> | Hin]; [|right; right; exact Hin].
    destruct (Qmax_is_arg a v) as [-> | ->]; [left; reflexivity | right; left; reflexivity].
Qed.

Lemma mathMax_nonempty (values : list Q) :
  values <> [] ->
  exists m, mathMax values = Some m /\ In m values /\ Forall (fun v => v <= m) values.
Proof.
  destruct values as [|a values]; [contradiction|]. intros _.
  unfold mathMax. simpl.
  destruct (mathMax_from values a) as (m & Hm & Hin & Hle & Hall).
  exists m. split; [exact Hm|]. split.
  - destruct Hin as [-> | Hin]; [left; reflexivity | right; exact Hin].
  - constructor; assumption.
Qed.

Lemma normalize_range (points : list Q) :
  Forall (fun v => 0 <= v) points ->
  Forall (fun v => 0 <= v /\ v <= 1) (normalize points).
Proof.
  intro Hpos. unfold normalize. apply Forall_map.
  destruct points as [|p points]; [constructor|].
  destruct (mathMax_nonempty (p :: points)) as (m & -> & _ & Hall); [discriminate|].
  rewrite Forall_forall in *. intros v Hv.
  unfold isPositive, quotient.
  destruct (Qltb 0 m) eqn:E; [|split; lra].
  apply Qltb_true in E. specialize (Hpos v Hv). specialize (Hall v Hv).
  split.
  - apply Qle_shift_div_l; [exact E | lra].
  - apply Qle_shift_div_r; [exact E | lra].
Qed.

Lemma normalize_reaches_one (points : list Q) :
  (exists v, In v points /\ 0 < v) -> exists w, In w (normalize points) /\ w == 1.
Proof.
  intros (v & Hv & Hpos).
  destruct (mathMax_nonempty points) as (m & Hm & Hin & Hall).
  { intro H. subst points. contradiction. }
  rewrite Forall_forall in Hall. specialize (Hall v Hv).
  assert (Hmpos : 0 < m) by lra.
  exists (m / m). split.
  - unfold normalize. apply in_map_iff. exists m. split; [|exact Hin].
    rewrite Hm. unfold isPositive, quotient.
    rewrite (proj2 (Qltb_true 0 m) Hmpos). reflexivity.
  - field. lra.
Qed.

Lemma normalize_flat (points : list Q) :
  Forall (fun v => v <= 0) points -> Forall (fun w => w = 0) (normalize points).
Proof.
  intro Hz. unfold normalize. apply Forall_map.
  destruct points as [|p points]; [constructor|].
  destruct (mathMax_nonempty (p :: points)) as (m & -> & Hin & _); [discriminate|].
  rewrite Forall_forall in Hz. pose proof (Hz m Hin) as Hm.
  unfold isPositive. rewrite (proj2 (Qltb_false 0 m) Hm).
  apply Forall_forall. intros v _. reflexivity.
Qed.

(** *** Blocks and samples *)

Lemma blocks_within_buffer (audioBuffer : AudioBuffer) :
  (blockCount audioBuffer * blockLength audioBuffer
   <= length (channelData audioBuffer))%nat.
Proof.
  unfold blockLength. destruct (blockCount audioBuffer) as [|k] eqn:E; [lia|].
  apply Nat.Div0.mul_div_le.
Qed.

Lemma blockCount_le_1500 (audioBuffer : AudioBuffer) : (blockCount audioBuffer <= 1500)%nat.
Proof. unfold blockCount. apply Nat.le_min_l. Qed.

(** Every block processed by the loop is a full block of the buffer. *)
Lemma block_is_full (audioBuffer : AudioBuffer) (i : nat) :
  (i < blockCount audioBuffer)%nat ->
  Nat.min (blockLength audioBuffer * i + blockLength audioBuffer)
          (length (channelData audioBuffer))
  = (blockLength audioBuffer * i + blockLength audioBuffer)%nat.
Proof.
  intro Hi. apply Nat.min_l.
  pose proof (blocks_within_buffer audioBuffer) as H.
  nia.
Qed.

Lemma amplitude_positive (sqrt : Q -> Q) (audioBuffer : AudioBuffer) (j : nat) :
  (j < blockCount audioBuffer * blockLength audioBuffer)%nat ->
  ~ nth j (channelData audioBuffer) 0 == 0 ->
  exists i, (i < blockCount audioBuffer)%nat
    /\ 0 < blockAmplitude sqrt (channelData audioBuffer) (blockLength audioBuffer) i.
Proof.
  intros Hj Hnz.
  assert (Hbs : (0 < blockLength audioBuffer)%nat) by nia.
  exists (j / blockLength audioBuffer)%nat.
  assert (Hi : (j / blockLength audioBuffer < blockCount audioBuffer)%nat).
  { apply Nat.Div0.div_lt_upper_bound. lia. }
  split; [exact Hi|].
  unfold blockAmplitude. cbv zeta. rewrite (block_is_full audioBuffer _ Hi).
  eapply Qlt_le_trans; [|apply Q.le_max_l].
  eapply Qlt_le_trans; [apply (Qabs_pos_of_nonzero _ Hnz)|].
  apply blockSums_peak.
  pose proof (Nat.div_mod_eq j (blockLength audioBuffer)) as Hdm.
  pose proof (Nat.mod_upper_bound j (blockLength audioBuffer)) as Hmod.
  lia.
Qed.

Lemma amplitude_zero (sqrt : Q -> Q) (audioBuffer : AudioBuffer) (i : nat) :
  (forall x, x == 0 -> sqrt x == 0) ->
  (i < blockCount audioBuffer)%nat ->
  (forall j, (j < blockCount audioBuffer * blockLength audioBuffer)%nat ->
             nth j (channelData audioBuffer) 0 == 0) ->
  blockAmplitude sqrt (channelData audioBuffer) (blockLength audioBuffer) i <= 0.
Proof.
  intros Hsqrt Hi Hz.
  assert (Hblock : forall j,
             (blockLength audioBuffer * i <= j
              < blockLength audioBuffer * i + blockLength audioBuffer)%nat ->
             nth j (channelData audioBuffer) 0 == 0).
  { intros j Hj. apply Hz. nia. }
  unfold blockAmplitude, blockEnergy. cbv zeta.
  rewrite (block_is_full audioBuffer _ Hi).
  destruct (blockSums_zero (channelData audioBuffer) _ _ Hblock) as [Hp Hs].
  match goal with
  | |- Qmax _ (sqrt ?x * 2) <= 0 =>
      assert (Hrms : sqrt x == 0) by (apply Hsqrt; rewrite Hs; unfold Qdiv; ring)
  end.
  apply Q.max_lub; [lra|]. rewrite Hrms. lra.
Qed.

(** C3, as amended: the waveform has min(1500, floor(n / 1024)) values, at
    most 1500, each in [0, 1]; one of them equals 1 as soon as one of the
    samples covered by the blocks is not zero; and when all the samples
    covered by the blocks are zero, as for an all-zero buffer, every value
    is 0 (the division by the maximum is skipped). *)
Theorem waveform_normalized (sqrt : Q -> Q) (audioBuffer : AudioBuffer) :
  let rawData := channelData audioBuffer in
  let covered := (blockCount audioBuffer * blockLength audioBuffer)%nat in
  let waveform := fst (analyse sqrt audioBuffer) in
  (length waveform <= 1500)%nat
  /\ Forall (fun v => 0 <= v /\ v <= 1) waveform
  /\ ((exists j, (j < covered)%nat /\ ~ nth j rawData 0 == 0) ->
      exists v, In v waveform /\ v == 1)
  /\ ((forall x, x == 0 -> sqrt x == 0) ->
      ((forall j, (j < covered)%nat -> nth j rawData 0 == 0) ->
       Forall (fun v => v = 0) waveform)
      /\ (Forall (fun x => x == 0) rawData -> Forall (fun v => v = 0) waveform)).
Proof.
  intros rawData covered waveform.
  assert (Hpoints : waveformPoints (runLoop sqrt audioBuffer (blockCount audioBuffer))
                    = map (blockAmplitude sqrt rawData (blockLength audioBuffer))
                          (seq 0 (blockCount audioBuffer)))
    by apply waveformPoints_runLoop.
  split.
  { unfold waveform. rewrite analyse_length. apply blockCount_le_1500. }
  split.
  { unfold waveform, analyse. cbn [fst]. apply normalize_range.
    rewrite Hpoints. apply Forall_map. apply Forall_forall.
    intros i _. apply blockAmplitude_nonneg. }
  split.
  { intros (j & Hj & Hnz).
    unfold waveform, analyse. cbn [fst]. apply normalize_reaches_one.
    destruct (amplitude_positive sqrt audioBuffer j Hj Hnz) as (i & Hi & Hpos).
    exists (blockAmplitude sqrt rawData (blockLength audioBuffer) i).
    split; [|exact Hpos].
    rewrite Hpoints. apply in_map. apply in_seq. lia. }
  intro Hsqrt.
  assert (Hcov : (forall j, (j < covered)%nat -> nth j rawData 0 == 0) ->
                 Forall (fun v => v = 0) waveform).
  { intro Hz. unfold waveform, analyse. cbn [fst]. apply normalize_flat.
    rewrite Hpoints. apply Forall_map. apply Forall_forall.
    intros i Hi. apply in_seq in Hi.
    apply amplitude_zero; [exact Hsqrt | lia | exact Hz]. }
  split; [exact Hcov|].
  intro Hall. apply Hcov. intros j _.
  destruct (nth_in_or_default j rawData 0) as [Hin | ->]; [|reflexivity].
  rewrite Forall_forall in Hall. apply Hall. exact Hin.
Qed.

(** *** Concrete runs *)

Example silence_analysis : analyse sqrtUp silence = ([0; 0], []).
Proof. vm_compute. reflexivity. Qed.

Example threeBlocks_waveform :
  map Qred (fst (analyse sqrtUp threeBlocks)) = [0; 1 # 2; 1].
Proof. vm_compute. reflexivity. Qed.

Example threeBlocks_beats :
  map (fun b => (Qred (time b), strengthValue b)) (snd (analyse sqrtUp threeBlocks))
  = [(1, None); (2, Some (20 # 7))].
Proof. vm_compute. reflexivity. Qed.

(** C3 as stated fails: a buffer that is not all-zero can give a waveform
    without any value equal to 1, either because it is shorter than 1024
    samples (no value at all) or because its only non-zero samples lie
    after the last block. *)
Lemma waveform_without_one :
  ~ Forall (fun x => x == 0) (channelData oneSample)
  /\ fst (analyse sqrtUp oneSample) = []
  /\ ~ Forall (fun x => x == 0) (channelData lateClick)
  /\ fst (analyse sqrtUp lateClick) = [0; 0]
  /\ ~ (exists v, In v (fst (analyse sqrtUp lateClick)) /\ v == 1).
Proof.
  assert (Hlate : fst (analyse sqrtUp lateClick) = [0; 0]) by (vm_compute; reflexivity).
  split.
  { intro H. inversion H as [|? ? H1 _]; subst. discriminate H1. }
  split; [reflexivity|].
  split.
  { intro H. rewrite Forall_forall in H.
    assert (H1 : 1 == 0); [|discriminate H1].
    apply H. unfold lateClick. cbn [channelData].
    apply in_or_app. right. left. reflexivity. }
  split; [exact Hlate|].
  rewrite Hlate. intros (v & [<- | [<- | []]] & Hv); discriminate Hv.
Qed.

Lemma waveform_normalized_witness :
  (exists v, In v (fst (analyse sqrtUp threeBlocks)) /\ v == 1)
  /\ Forall (fun v => v = 0) (fst (analyse sqrtUp lateClick)).
Proof.
  split.
  - apply (proj1 (proj2 (proj2 (waveform_normalized sqrtUp threeBlocks)))).
    exists 1024%nat. split.
    + vm_compute. lia.
    + vm_compute. discriminate.
  - apply (proj1 (proj2 (proj2 (proj2 (waveform_normalized sqrtUp lateClick)))
                   sqrtUp_zero)).
    intros j Hj.
    assert (Hlen : (j < 2048)%nat) by (vm_compute in Hj; lia).
    unfold lateClick. cbn [channelData].
    rewrite app_nth1 by (rewrite repeat_length; exact Hlen).
    rewrite nth_repeat. reflexivity.
Defined.

Lemma beats_ascending_and_strong_witness :
  StronglySorted (fun a b => time a <= time b) (snd (analyse sqrtUp threeBlocks)).
Proof.
  apply (beats_ascending_and_strong sqrtUp threeBlocks).
  vm_compute. discriminate.
Defined.

End AudioPlayerSpec.

(** * Further properties of the timeline *)
Module TimelineExtra.
Import Timeline.

Lemma timelineWidth_pos (duration zoom : Q) : 0 < timelineWidth duration zoom.
Proof.
  pose proof (TimelineSpec.timelineWidth_bounds duration zoom) as [H _]. lra.
Qed.

Lemma Qeq_bool_false_of_neq (a b : Q) : ~ a == b -> Qeq_bool a b = false.
Proof.
  intro H. destruct (Qeq_bool a b) eqn:E; [|reflexivity].
  apply Qeq_bool_iff in E. contradiction.
Qed.

Lemma timeToPixel_loaded (duration zoom t : Q) :
  ~ duration == 0 ->
  timeToPixel duration zoom t = (t / duration) * timelineWidth duration zoom.
Proof.
  intro H. unfold timeToPixel. rewrite (Qeq_bool_false_of_neq _ _ H). reflexivity.
Qed.

Lemma pixelToTime_loaded (duration zoom x : Q) :
  ~ duration == 0 ->
  pixelToTime duration zoom x = (x / timelineWidth duration zoom) * duration.
Proof.
  intro H. unfold pixelToTime. rewrite (Qeq_bool_false_of_neq _ _ H). reflexivity.
Qed.

Lemma pixelToTime_timeToPixel (duration zoom t : Q) :
  ~ duration == 0 -> pixelToTime duration zoom (timeToPixel duration zoom t) == t.
Proof.
  intro H. pose proof (timelineWidth_pos duration zoom) as Hw.
  rewrite pixelToTime_loaded, timeToPixel_loaded by exact H.
  field. split; lra.
Qed.

(** X1: on a loaded track the two mappings are inverse to each other
    (in exact arithmetic). *)
Theorem pixel_time_round_trip (duration zoom t x : Q) :
  ~ duration == 0 ->
  pixelToTime duration zoom (timeToPixel duration zoom t) == t
  /\ timeToPixel duration zoom (pixelToTime duration zoom x) == x.
Proof.
  intro H. split; [apply pixelToTime_timeToPixel; exact H|].
  pose proof (timelineWidth_pos duration zoom) as Hw.
  rewrite pixelToTime_loaded, timeToPixel_loaded by exact H.
  field. split; lra.
Qed.

Lemma pixel_time_round_trip_witness :
  pixelToTime 120 1 (timeToPixel 120 1 (75 # 2)) == 75 # 2.
Proof.
  apply (pixel_time_round_trip 120 1 (75 # 2) 0). intro H. discriminate H.
Defined.

Lemma timeToPixel_mono (duration zoom a b : Q) :
  0 < duration -> a <= b -> timeToPixel duration zoom a <= timeToPixel duration zoom b.
Proof.
  intros Hd Hab. pose proof (timelineWidth_pos duration zoom) as Hw.
  rewrite !timeToPixel_loaded by lra.
  apply Qmult_le_compat_r; [|lra].
  unfold Qdiv. apply Qmult_le_compat_r; [exact Hab|].
  apply Qinv_le_0_compat. lra.
Qed.

Lemma timeToPixel_add (duration zoom a b : Q) :
  timeToPixel duration zoom (a + b)
  == timeToPixel duration zoom a + timeToPixel duration zoom b.
Proof.
  unfold timeToPixel. destruct (Qeq_bool duration 0) eqn:E; [reflexivity|].
  field. intro H. apply Qeq_bool_iff in H. congruence.
Qed.

(** X2: for a positive duration [timeToPixel] is increasing, sends 0 to 0
    and the duration to the track width, so a time of the track falls
    inside the track, at 20000 px at most. *)
Theorem timeToPixel_within_track (duration zoom s t : Q) :
  0 < duration ->
  (s <= t -> timeToPixel duration zoom s <= timeToPixel duration zoom t)
  /\ timeToPixel duration zoom 0 == 0
  /\ timeToPixel duration zoom duration == timelineWidth duration zoom
  /\ (0 <= t -> t <= duration ->
      0 <= timeToPixel duration zoom t
      /\ timeToPixel duration zoom t <= timelineWidth duration zoom
      /\ timeToPixel duration zoom t <= 20000).
Proof.
  intro Hd.
  assert (Hne : ~ duration == 0) by lra.
  pose proof (timelineWidth_pos duration zoom) as Hw.
  pose proof (TimelineSpec.timelineWidth_bounds duration zoom) as [_ Hmax].
  assert (Hmono : forall a b, a <= b ->
            timeToPixel duration zoom a <= timeToPixel duration zoom b).
  { intros a b Hab. apply timeToPixel_mono; assumption. }
  assert (H0 : timeToPixel duration zoom 0 == 0).
  { rewrite timeToPixel_loaded by exact Hne. field. exact Hne. }
  assert (H1 : timeToPixel duration zoom duration == timelineWidth duration zoom).
  { rewrite timeToPixel_loaded by exact Hne. field. exact Hne. }
  split; [apply Hmono|]. split; [exact H0|]. split; [exact H1|].
  intros Ht0 Ht1.
  pose proof (Hmono 0 t Ht0) as Hlo. pose proof (Hmono t duration Ht1) as Hhi.
  rewrite H0 in Hlo. rewrite H1 in Hhi.
  split; [exact Hlo|]. split; [exact Hhi | lra].
Qed.

Lemma timeToPixel_within_track_witness :
  timeToPixel 120 1 30 <= timeToPixel 120 1 60
  /\ timeToPixel 120 1 120 == timelineWidth 120 1.
Proof.
  destruct (timeToPixel_within_track 120 1 30 60 eq_refl) as (Hm & _ & Hd & _).
  split; [apply Hm; discriminate | exact Hd].
Defined.

(** X3: a click on the timeline seeks to [pixelToTime] of the clicked
    pixel clamped into [0, duration], that is to that time when it lies in
    the range, to 0 when it lies before and to the duration when it lies
    after, and resumes auto-follow; while a command is dragged the click
    does nothing at all. *)
Theorem timeline_click_seeks_clamped
    (duration zoom clientX rectLeft : Q) (drag : DragState) (isUserScrolling : bool) :
  let candidate := pixelToTime duration zoom (clientX - rectLeft) in
  let clampedTime := Qmax 0 (Qmin duration candidate) in
  (isDragging drag = false ->
     handleTimelineClick duration zoom true clientX rectLeft drag isUserScrolling
     = (Some clampedTime, false)
     /\ 0 <= clampedTime
     /\ (0 <= duration -> clampedTime <= duration)
     /\ (0 <= candidate -> candidate <= duration -> clampedTime == candidate)
     /\ (0 <= duration -> candidate < 0 -> clampedTime == 0)
     /\ (0 <= duration -> duration < candidate -> clampedTime == duration))
  /\ (isDragging drag = true ->
        handleTimelineClick duration zoom true clientX rectLeft drag isUserScrolling
        = (None, isUserScrolling)).
Proof.
  intros candidate clampedTime. unfold handleTimelineClick.
  split; intro H; rewrite H; cbn [negb orb]; [|reflexivity].
  split; [reflexivity|].
  split; [apply Q.le_max_l|].
  split; [intro Hd; apply clamp_bounds; exact Hd|].
  split; [intros H1 H2; apply clamp_inside; assumption|].
  split.
  - intros H1 H2. unfold clampedTime.
    apply Q.max_l. apply Qle_trans with candidate; [apply Q.le_min_r | lra].
  - intros H1 H2. unfold clampedTime.
    rewrite (Q.min_l duration candidate) by lra. apply Q.max_r. exact H1.
Qed.

Lemma timeline_click_seeks_clamped_witness :
  handleTimelineClick 100 (1 # 6) true 210 10 panDrag true = (None, true)
  /\ handleTimelineClick 100 (1 # 6) true 5000 10 (handleMouseUp panDrag) true
     = (Some (Qmax 0 (Qmin 100 (pixelToTime 100 (1 # 6) (5000 - 10)))), false)
  /\ Qmax 0 (Qmin 100 (pixelToTime 100 (1 # 6) (5000 - 10))) == 100
  /\ Qmax 0 (Qmin 100 (pixelToTime 100 (1 # 6) (5 - 10))) == 0
  /\ Qmax 0 (Qmin 100 (pixelToTime 100 (1 # 6) (210 - 10))) == 20.
Proof.
  split; [|split; [|split; [|split]]].
  - apply (proj2 (timeline_click_seeks_clamped 100 (1 # 6) 210 10 panDrag true)).
    reflexivity.
  - apply (proj1 (timeline_click_seeks_clamped 100 (1 # 6) 5000 10
                    (handleMouseUp panDrag) true)).
    reflexivity.
  - destruct (proj1 (timeline_click_seeks_clamped 100 (1 # 6) 5000 10
                       (handleMouseUp panDrag) true) eq_refl)
      as (_ & _ & _ & _ & _ & Hhigh).
    apply Hhigh; vm_compute; first [reflexivity | discriminate].
  - destruct (proj1 (timeline_click_seeks_clamped 100 (1 # 6) 5 10
                       (handleMouseUp panDrag) true) eq_refl)
      as (_ & _ & _ & _ & Hlow & _).
    apply Hlow; vm_compute; first [reflexivity | discriminate].
  - destruct (proj1 (timeline_click_seeks_clamped 100 (1 # 6) 210 10
                       (handleMouseUp panDrag) true) eq_refl)
      as (_ & _ & _ & Hin & _ & _).
    rewrite Hin by (vm_compute; discriminate). reflexivity.
Defined.

Lemma pixelToTime_add (duration zoom a b : Q) :
  pixelToTime duration zoom (a + b)
  == pixelToTime duration zoom a + pixelToTime duration zoom b.
Proof.
  pose proof (timelineWidth_pos duration zoom) as Hw.
  unfold pixelToTime. destruct (Qeq_bool duration 0); [reflexivity|].
  field. lra.
Qed.

(** X4: a command box sits at [timeToPixel] of its time, so when it is
    grabbed and the pointer has not moved, the drag reports the command's
    own time; a pointer moved by [dx] pixels reports that time plus
    [pixelToTime dx], clamped into [0, duration]. *)
Theorem drag_keeps_grab_point
    (duration zoom clientX timelineLeft commandLeftEdge dx : Q) (cmd : StacyCommand) :
  ~ duration == 0 -> 0 <= time cmd -> time cmd <= duration ->
  commandLeftEdge == timelineLeft + commandLeft duration zoom cmd ->
  let s := handleCommandMouseDown clientX commandLeftEdge cmd in
  (exists t, handleMouseMove duration zoom true clientX timelineLeft s = Some (id cmd, t)
             /\ t == time cmd)
  /\ (exists t, handleMouseMove duration zoom true (clientX + dx) timelineLeft s
                = Some (id cmd, t)
                /\ t == Qmax 0 (Qmin duration (time cmd + pixelToTime duration zoom dx))).
Proof.
  intros Hne Ht0 Ht1 Hleft s.
  assert (Hback : pixelToTime duration zoom (commandLeft duration zoom cmd) == time cmd).
  { apply pixelToTime_timeToPixel. exact Hne. }
  assert (Hx : forall d,
            pixelToTime duration zoom (clientX + d - timelineLeft - (clientX - commandLeftEdge))
            == time cmd + pixelToTime duration zoom d).
  { intro d. rewrite <- Hback, <- pixelToTime_add.
    pose proof (timelineWidth_pos duration zoom) as Hw.
    rewrite !pixelToTime_loaded by exact Hne. rewrite Hleft. field. lra. }
  split.
  - eexists. split; [reflexivity|]. cbn [dragOffset s handleCommandMouseDown].
    assert (H0 : pixelToTime duration zoom (clientX - timelineLeft - (clientX - commandLeftEdge))
                 == time cmd).
    { rewrite <- Hback.
      pose proof (timelineWidth_pos duration zoom) as Hw.
      rewrite !pixelToTime_loaded by exact Hne. rewrite Hleft. field. lra. }
    rewrite H0. apply clamp_inside; assumption.
  - eexists. split; [reflexivity|]. cbn [dragOffset s handleCommandMouseDown].
    rewrite (Hx dx). reflexivity.
Qed.

Lemma drag_keeps_grab_point_witness :
  exists t, handleMouseMove 100 (1 # 6) true 310 100
              (handleCommandMouseDown 310 150 draggedPan) = Some ("pan-1"%string, t)
            /\ t == 5.
Proof.
  apply (drag_keeps_grab_point 100 (1 # 6) 310 100 150 0 draggedPan).
  - intro H. discriminate H.
  - discriminate.
  - discriminate.
  - reflexivity.
Defined.

(** The hysteresis of both auto-scroll effects: with the container scrolled
    to the position asked for, the playhead is no longer near an edge. *)
Lemma recentred_is_stable (playhead containerWidth : Q) :
  0 < containerWidth ->
  let target := Qmax 0 (playhead - containerWidth / 2) in
  (containerWidth / 2 <= playhead ->
     Qltb playhead (target + containerWidth * (1 # 10))
     || Qltb (target + containerWidth - containerWidth * (1 # 10)) playhead = false)
  /\ (Qltb playhead (target + containerWidth * (1 # 10))
      || Qltb (target + containerWidth - containerWidth * (1 # 10)) playhead = true ->
      playhead < containerWidth / 2).
Proof.
  intros Hw target.
  assert (Hcase : containerWidth / 2 <= playhead ->
            Qltb playhead (target + containerWidth * (1 # 10))
            || Qltb (target + containerWidth - containerWidth * (1 # 10)) playhead = false).
  { intro Hc.
    assert (Hhalf : containerWidth / 2 == containerWidth * (1 # 2)) by field.
    assert (Ht : target == playhead - containerWidth * (1 # 2)).
    { unfold target. rewrite Hhalf in *. apply Q.max_r. lra. }
    apply orb_false_iff. split; apply Qltb_false; rewrite Ht; lra. }
  split; [exact Hcase|].
  intro H. destruct (Qlt_le_dec playhead (containerWidth / 2)) as [Hlt | Hge]; [exact Hlt|].
  rewrite (Hcase Hge) in H. discriminate H.
Qed.

(** X5: the timeline's auto-scroll never asks for a negative position, and
    it settles: once the container is at the position asked for, the same
    playhead gives either no request (always so when the playhead is at
    least half a container width into the track) or the same position
    again. *)
Theorem timeline_autoScroll_settles
    (isPlaying isUserScrolling mounted : bool)
    (duration zoom currentTime containerWidth currentScrollLeft target : Q) :
  0 < containerWidth ->
  autoScroll isPlaying isUserScrolling mounted duration zoom currentTime
    containerWidth currentScrollLeft = Some target ->
  0 <= target
  /\ (autoScroll isPlaying isUserScrolling mounted duration zoom currentTime
        containerWidth target = None
      \/ autoScroll isPlaying isUserScrolling mounted duration zoom currentTime
           containerWidth target = Some target)
  /\ (containerWidth / 2 <= timeToPixel duration zoom currentTime ->
      autoScroll isPlaying isUserScrolling mounted duration zoom currentTime
        containerWidth target = None).
Proof.
  intros Hw. unfold autoScroll.
  destruct (negb isPlaying || isUserScrolling || negb mounted || Qeq_bool duration 0);
    [discriminate|].
  set (p := timeToPixel duration zoom currentTime).
  destruct (Qltb p (currentScrollLeft + containerWidth * (1 # 10))
            || Qltb (currentScrollLeft + containerWidth - containerWidth * (1 # 10)) p);
    [|discriminate].
  intro H. injection H as <-.
  split; [apply Q.le_max_l|].
  destruct (recentred_is_stable p containerWidth Hw) as [Hfar _].
  split.
  - destruct (Qltb p (Qmax 0 (p - containerWidth / 2) + containerWidth * (1 # 10))
              || Qltb (Qmax 0 (p - containerWidth / 2) + containerWidth
                       - containerWidth * (1 # 10)) p);
      [right; reflexivity | left; reflexivity].
  - intro Hc. rewrite (Hfar Hc). reflexivity.
Qed.

Lemma timeline_autoScroll_settles_witness :
  exists target,
    autoScroll true false true 120 1 60 1000 0 = Some target
    /\ target == 3100
    /\ autoScroll true false true 120 1 60 1000 target = None.
Proof.
  eexists. split; [reflexivity|]. split; [reflexivity|].
  refine (proj2 (proj2 (timeline_autoScroll_settles true false true 120 1 60 1000 0 _
                          eq_refl eq_refl)) _).
  vm_compute. discriminate.
Defined.

(** X6: the rows of a track lie inside the track and one below the other:
    every row is at least 20 px high, ends 2 px above the next one and
    before the bottom of the track, which is at least [TRACK_HEIGHT] high. *)
Theorem rows_fit_in_track (commandRows rowIndex : nat) :
  (rowIndex < commandRows)%nat ->
  (20 <= rowHeight commandRows)%nat
  /\ (rowTop commandRows rowIndex + rowHeight commandRows
      <= actualTrackHeight commandRows)%nat
  /\ (rowTop commandRows rowIndex + rowHeight commandRows + 2
      = rowTop commandRows (S rowIndex))%nat
  /\ (TRACK_HEIGHT <= actualTrackHeight commandRows)%nat.
Proof.
  intro Hi. unfold rowTop, actualTrackHeight.
  set (h := rowHeight commandRows).
  assert (Hh : (20 <= h)%nat) by (unfold h, rowHeight; apply Nat.le_max_l).
  split; [exact Hh|]. split; [|split].
  - apply Nat.le_trans with (commandRows * (h + 2) + 24)%nat; [nia | apply Nat.le_max_r].
  - simpl. lia.
  - apply Nat.le_max_l.
Qed.

Lemma rows_fit_in_track_witness :
  (rowTop 3 2 + rowHeight 3 <= actualTrackHeight 3)%nat.
Proof.
  apply (rows_fit_in_track 3 2). lia.
Defined.

(** X7: on a track of positive duration, the boxes of a row follow each
    other from left to right: a box drawn at the width of its duration ends
    where the next box of the row starts, or before; with the minimal
    width of 60 px the same holds for the commands that are at least 60 px
    long. *)
Theorem boxes_of_a_row_follow
    (duration zoom : Q) (commands : list StacyCommand) (lt : LightType) :
  0 < duration ->
  Forall (fun row =>
            StronglySorted
              (fun a b =>
                 commandLeft duration zoom a
                 + timeToPixel duration zoom (getCommandDuration a)
                 <= commandLeft duration zoom b
                 /\ (60 <= timeToPixel duration zoom (getCommandDuration a) ->
                     commandLeft duration zoom a + commandWidth duration zoom a
                     <= commandLeft duration zoom b)) row)
         (organizeCommandsIntoTracks commands lt).
Proof.
  intro Hd.
  destruct (TimelineSpec.layout_fold (lightCommands commands lt) []
              (TimelineSpec.sortByTime_sorted _) (Forall_nil _)
              (fun c _ => Forall_nil _)) as [Hok _].
  fold (organizeCommandsIntoTracks commands lt) in Hok.
  eapply Forall_impl; [|exact Hok].
  intros row [_ Hrow]. clear Hok.
  induction Hrow as [|a r Hr IH Ha]; constructor; [exact IH|].
  eapply Forall_impl; [|exact Ha].
  intros b Hab. unfold endsBefore, commandEnd in Hab. unfold commandLeft, commandWidth.
  assert (Hbox : timeToPixel duration zoom (time a)
                 + timeToPixel duration zoom (getCommandDuration a)
                 <= timeToPixel duration zoom (time b)).
  { rewrite <- timeToPixel_add. apply timeToPixel_mono; assumption. }
  split; [exact Hbox|].
  intro Hwide. rewrite (Q.max_r 60 _) by exact Hwide. exact Hbox.
Qed.

Lemma boxes_of_a_row_follow_witness :
  Forall (fun row =>
            StronglySorted
              (fun a b =>
                 commandLeft 120 1 a + timeToPixel 120 1 (getCommandDuration a)
                 <= commandLeft 120 1 b
                 /\ (60 <= timeToPixel 120 1 (getCommandDuration a) ->
                     commandLeft 120 1 a + commandWidth 120 1 a <= commandLeft 120 1 b)) row)
         (organizeCommandsIntoTracks scenarioB HeadsA).
Proof.
  apply (boxes_of_a_row_follow 120 1 scenarioB HeadsA). reflexivity.
Defined.

(** ** Time markers *)

Lemma tickTimes_markerElements (duration zoom : Q) (interval t : Z) (rest : list MarkerElement) :
  tickTimes (markerElements duration zoom interval t ++ rest) = t :: tickTimes rest.
Proof.
  unfold markerElements, tickTimes. cbv zeta.
  destruct ((Z.rem t 60 =? 0)%Z || ((interval <=? 2)%Z && (Z.rem t 10 =? 0)%Z)); reflexivity.
Qed.

Lemma le_floor_iff (k : Z) (q : Q) : (k <= Qfloor q)%Z <-> inject_Z k <= q.
Proof.
  split; intro H.
  - apply Qle_trans with (inject_Z (Qfloor q)); [rewrite <- Zle_Qle; exact H | apply Qfloor_le].
  - pose proof (Qlt_floor q) as Hlt.
    assert (Hk : inject_Z k < inject_Z (Qfloor q + 1)) by lra.
    rewrite <- Zlt_Qlt in Hk. lia.
Qed.

Lemma marker_in_track (duration : Q) (interval k : Z) :
  (0 < interval)%Z ->
  inject_Z (k * interval) <= duration <-> (k <= Qfloor (duration / inject_Z interval))%Z.
Proof.
  intro Hi. rewrite le_floor_iff.
  assert (Hq : 0 < inject_Z interval).
  { change 0 with (inject_Z 0). rewrite <- Zlt_Qlt. exact Hi. }
  rewrite inject_Z_mult. split; intro H.
  - apply Qle_shift_div_l; assumption.
  - apply Qmult_le_r with (z := / inject_Z interval).
    + apply Qinv_lt_0_compat. exact Hq.
    + setoid_replace (inject_Z k * inject_Z interval * / inject_Z interval)
        with (inject_Z k) by (field; lra).
      exact H.
Qed.

Lemma tickTimes_markersFrom (duration zoom : Q) (interval : Z) (fuel : nat) (k : Z) :
  (0 < interval)%Z ->
  tickTimes (markersFrom fuel duration zoom interval (k * interval))
  = map (fun j => ((k + Z.of_nat j) * interval)%Z)
        (seq 0 (Nat.min fuel (Z.to_nat (Qfloor (duration / inject_Z interval) - k + 1)))).
Proof.
  intro Hi. revert k. induction fuel as [|fuel IH]; intro k; [reflexivity|].
  cbn [markersFrom].
  destruct (Qle_bool (inject_Z (k * interval)) duration) eqn:E.
  - apply Qle_bool_iff in E. apply (marker_in_track duration interval k Hi) in E.
    rewrite tickTimes_markerElements.
    replace (k * interval + interval)%Z with ((k + 1) * interval)%Z by lia.
    rewrite IH.
    replace (Z.to_nat (Qfloor (duration / inject_Z interval) - k + 1))
      with (S (Z.to_nat (Qfloor (duration / inject_Z interval) - (k + 1) + 1))) by lia.
    rewrite <- Nat.succ_min_distr. cbn [seq map].
    rewrite Z.add_0_r. f_equal.
    rewrite <- seq_shift, map_map. apply map_ext. intro j. f_equal. lia.
  - assert (Hout : ~ (k <= Qfloor (duration / inject_Z interval))%Z).
    { intro H. apply (marker_in_track duration interval k Hi) in H.
      apply Qle_bool_iff in H. congruence. }
    replace (Z.to_nat (Qfloor (duration / inject_Z interval) - k + 1)) with 0%nat by lia.
    rewrite Nat.min_0_r. reflexivity.
Qed.

Lemma markerInterval_pos (duration zoom : Q) : (1 <= markerInterval duration zoom)%Z.
Proof.
  unfold markerInterval.
  destruct (Qeq_bool duration 0); [lia|]. cbv zeta.
  destruct (Qltb _ 20); [lia|]. destruct (Qltb _ 50); [lia|]. destruct (Qltb _ 100); lia.
Qed.

(** X8: for a duration that is not negative the loop of the time markers
    ends with one marker at every multiple of the interval from 0 up to
    the duration, in ascending order, and no other. *)
Theorem time_markers_cover_track (duration zoom : Q) :
  0 <= duration ->
  let interval := markerInterval duration zoom in
  tickTimes (generateTimeMarkers duration zoom)
  = map (fun j => (Z.of_nat j * interval)%Z)
        (seq 0 (S (Z.to_nat (Qfloor (duration / inject_Z interval))))).
Proof.
  intros Hd interval. unfold generateTimeMarkers. fold interval.
  pose proof (markerInterval_pos duration zoom) as Hi. fold interval in Hi.
  change 0%Z with (0 * interval)%Z at 1.
  rewrite tickTimes_markersFrom by lia.
  assert (Hfloor0 : (0 <= Qfloor duration)%Z).
  { apply le_floor_iff. exact Hd. }
  assert (Hq : 0 < inject_Z interval).
  { change 0 with (inject_Z 0). rewrite <- Zlt_Qlt. lia. }
  assert (Hle : (Qfloor (duration / inject_Z interval) <= Qfloor duration)%Z).
  { apply Qfloor_resp_le. apply Qle_shift_div_r; [exact Hq|].
    assert (H1 : 1 <= inject_Z interval).
    { change 1 with (inject_Z 1). rewrite <- Zle_Qle. exact Hi. }
    nra. }
  assert (Hge : (0 <= Qfloor (duration / inject_Z interval))%Z).
  { apply le_floor_iff. apply Qle_shift_div_l; [exact Hq|].
    change (inject_Z 0) with 0. lra. }
  replace (Nat.min (S (Z.to_nat (Qfloor duration)))
             (Z.to_nat (Qfloor (duration / inject_Z interval) - 0 + 1)))
    with (S (Z.to_nat (Qfloor (duration / inject_Z interval)))) by lia.
  apply map_ext. intro j. reflexivity.
Qed.

Lemma time_markers_cover_track_witness :
  tickTimes (generateTimeMarkers 12 1)
  = map (fun j => (Z.of_nat j * markerInterval 12 1)%Z)
        (seq 0 (S (Z.to_nat (Qfloor (12 / inject_Z (markerInterval 12 1)))))).
Proof.
  apply (time_markers_cover_track 12 1). discriminate.
Defined.

(** X9: the interval between two markers is 1, 2, 5 or 10 s, and when the
    track shows at least 20 px per second two consecutive markers are at
    least 100 px apart. *)
Theorem time_markers_spacing (duration zoom : Q) (t : Z) :
  0 < duration ->
  let interval := markerInterval duration zoom in
  let pixelsPerSecond := timelineWidth duration zoom / duration in
  In interval [1; 2; 5; 10]%Z
  /\ timeToPixel duration zoom (inject_Z (t + interval))
     - timeToPixel duration zoom (inject_Z t)
     == inject_Z interval * pixelsPerSecond
  /\ (20 <= pixelsPerSecond -> 100 <= inject_Z interval * pixelsPerSecond).
Proof.
  intros Hd interval pps.
  assert (Hne : ~ duration == 0) by lra.
  split; [|split].
  - unfold interval, markerInterval. rewrite (Qeq_bool_false_of_neq _ _ Hne). cbv zeta.
    destruct (Qltb _ 20); [simpl; tauto|].
    destruct (Qltb _ 50); [simpl; tauto|].
    destruct (Qltb _ 100); simpl; tauto.
  - rewrite !timeToPixel_loaded by exact Hne. rewrite inject_Z_plus.
    unfold pps. field. exact Hne.
  - intro H20. unfold interval, markerInterval. rewrite (Qeq_bool_false_of_neq _ _ Hne).
    cbv zeta. fold pps.
    destruct (Qltb pps 20) eqn:E20; [apply Qltb_true in E20; lra|].
    destruct (Qltb pps 50) eqn:E50.
    { change (inject_Z 5) with 5. lra. }
    apply Qltb_false in E50.
    destruct (Qltb pps 100) eqn:E100.
    { change (inject_Z 2) with 2. lra. }
    apply Qltb_false in E100. change (inject_Z 1) with 1. lra.
Qed.

Lemma time_markers_spacing_witness :
  timeToPixel 125 1 (inject_Z (4 + markerInterval 125 1)) - timeToPixel 125 1 (inject_Z 4)
  == inject_Z (markerInterval 125 1) * (timelineWidth 125 1 / 125).
Proof.
  apply (time_markers_spacing 125 1 4). reflexivity.
Defined.





Lemma Qtrunc_nonneg (q : Q) : 0 <= q -> Qtrunc q = Qfloor q.
Proof.
  intro H. unfold Qtrunc. rewrite (proj2 (Qle_bool_iff _ _) H). reflexivity.
Qed.

Lemma two_digit_seconds (s : Z) :
  (0 <= s < 60)%Z -> String.length (padStart2 (numberToString s)) = 2%nat.
Proof.
  intro Hs.
  assert (Hall : forallb (fun n => (String.length (padStart2 (numberToString (Z.of_nat n)))
                                    =? 2)%nat) (seq 0 60) = true) by (vm_compute; reflexivity).
  rewrite forallb_forall in Hall.
  specialize (Hall (Z.to_nat s)). rewrite Z2Nat.id in Hall by lia.
  apply Nat.eqb_eq. apply Hall. apply in_seq. lia.
Qed.

(** X11: a whole number of seconds, m minutes and s seconds, is formatted
    as the minutes, a colon, the seconds on two digits and ".00". *)
Theorem formatTime_whole_seconds (m s : Z) :
  (0 <= m)%Z -> (0 <= s < 60)%Z ->
  formatTime (inject_Z (60 * m + s))
  = (numberToString m ++ ":" ++ padStart2 (numberToString s) ++ ".00")%string
  /\ String.length (padStart2 (numberToString s)) = 2%nat.
Proof.
  intros Hm Hs. split; [|apply two_digit_seconds; exact Hs].
  set (t := (60 * m + s)%Z).
  assert (Ht0 : 0 <= inject_Z t).
  { change 0 with (inject_Z 0). rewrite <- Zle_Qle. unfold t. lia. }
  assert (Hmin : Qfloor (inject_Z t / 60) = m).
  { change 60 with (inject_Z 60). rewrite <- Zdiv_Qdiv.
    unfold t. symmetry. apply (Z.div_unique (60 * m + s) 60 m s); lia. }
  assert (Hsec : Qfloor (jsRem (inject_Z t) 60) = s).
  { unfold jsRem. rewrite Qtrunc_nonneg.
    - rewrite Hmin.
      assert (E : inject_Z t - 60 * inject_Z m == inject_Z s).
      { unfold t. rewrite inject_Z_plus, inject_Z_mult. change (inject_Z 60) with 60. ring. }
      rewrite E. apply Qfloor_Z.
    - apply Qle_shift_div_l; [reflexivity | lra]. }
  assert (Hcs : Qfloor (jsRem (inject_Z t) 1 * 100) = 0%Z).
  { unfold jsRem. rewrite Qtrunc_nonneg.
    - assert (E1 : inject_Z t / 1 == inject_Z t) by (field).
      rewrite E1, Qfloor_Z.
      assert (E : (inject_Z t - 1 * inject_Z t) * 100 == inject_Z 0) by (simpl; ring).
      rewrite E. apply Qfloor_Z.
    - apply Qle_shift_div_l; [reflexivity | lra]. }
  unfold formatTime. cbv zeta. rewrite Hmin, Hsec, Hcs. reflexivity.
Qed.

Lemma formatTime_whole_seconds_witness :
  formatTime (inject_Z (60 * 2 + 5)) = "2:05.00"%string.
Proof.
  apply (proj1 (formatTime_whole_seconds 2 5 ltac:(lia) ltac:(lia))).
Defined.

(** ** The layout and the order of the command list *)

Lemma filter_perm {A : Type} (f : A -> bool) (l l' : list A) :
  Permutation l l' -> Permutation (filter f l) (filter f l').
Proof.
  induction 1 as [|x l l' _ IH|x y l|l l' l'' _ IH1 _ IH2]; simpl.
  - constructor.
  - destruct (f x); [constructor|]; exact IH.
  - destruct (f x), (f y); try apply Permutation_refl. apply perm_swap.
  - eapply perm_trans; eassumption.
Qed.

Lemma strictly_sorted_perm_eq (l1 l2 : list StacyCommand) :
  StronglySorted (fun a b => time a < time b) l1 ->
  StronglySorted (fun a b => time a < time b) l2 ->
  Permutation l1 l2 -> l1 = l2.
Proof.
  revert l2. induction l1 as [|a t1 IH]; intros l2 H1 H2 P.
  - apply Permutation_nil in P. symmetry. exact P.
  - destruct l2 as [|b t2]; [apply Permutation_sym, Permutation_nil in P; discriminate P|].
    inversion H1 as [|? ? Hs1 Hf1]; subst. inversion H2 as [|? ? Hs2 Hf2]; subst.
    rewrite Forall_forall in Hf1, Hf2.
    assert (Hab : a = b).
    { pose proof (Permutation_in a P (or_introl eq_refl)) as Ha.
      pose proof (Permutation_in b (Permutation_sym P) (or_introl eq_refl)) as Hb.
      destruct Ha as [Ha | Ha]; [symmetry; exact Ha|].
      destruct Hb as [Hb | Hb]; [exact Hb|].
      pose proof (Hf2 a Ha). pose proof (Hf1 b Hb). lra. }
    subst b. f_equal. apply IH; [assumption | assumption |].
    apply (Permutation_cons_inv P).
Qed.

Lemma sorted_distinct_strict (l : list StacyCommand) :
  StronglySorted byTime l -> NoDup l ->
  (forall a b, In a l -> In b l -> time a == time b -> a = b) ->
  StronglySorted (fun a b => time a < time b) l.
Proof.
  induction 1 as [|a l Hs IH Hf]; intros Hnd Hdist; [constructor|].
  inversion Hnd as [|? ? Hnotin Hnd']; subst.
  constructor.
  - apply IH; [exact Hnd'|]. intros x y Hx Hy. apply Hdist; right; assumption.
  - rewrite Forall_forall in *. intros b Hb.
    pose proof (Hf b Hb) as Hle. unfold byTime in Hle.
    destruct (Qlt_le_dec (time a) (time b)) as [Hlt | Hge]; [exact Hlt|].
    assert (Heq : time a == time b) by lra.
    pose proof (Hdist a b (or_introl eq_refl) (or_intror Hb) Heq). subst b. contradiction.
Qed.

(** X12: when the commands of a lane are distinct and start at pairwise
    different times, the rows of the lane do not depend on the order in
    which the command list holds the commands. *)
Theorem layout_ignores_list_order (commands commands' : list StacyCommand) (lt : LightType) :
  Permutation commands commands' ->
  NoDup (lane commands lt) ->
  (forall a b, In a (lane commands lt) -> In b (lane commands lt) ->
               time a == time b -> a = b) ->
  organizeCommandsIntoTracks commands lt = organizeCommandsIntoTracks commands' lt.
Proof.
  intros P Hnd Hdist.
  assert (Plane : Permutation (lane commands lt) (lane commands' lt))
    by (apply filter_perm; exact P).
  assert (Hstrict : forall l, Permutation (lane commands lt) l ->
            StronglySorted (fun a b => time a < time b) (sortByTime l)).
  { intros l Pl.
    assert (Ps : Permutation (lane commands lt) (sortByTime l)).
    { eapply perm_trans; [exact Pl | apply Permutation_sym, TimelineSpec.sortByTime_perm]. }
    apply sorted_distinct_strict.
    - apply TimelineSpec.sortByTime_sorted.
    - apply (Permutation_NoDup Ps Hnd).
    - intros a b Ha Hb. apply Hdist; apply (Permutation_in _ (Permutation_sym Ps)); assumption. }
  unfold organizeCommandsIntoTracks, lightCommands. f_equal.
  apply strictly_sorted_perm_eq.
  - apply Hstrict. apply Permutation_refl.
  - apply Hstrict. exact Plane.
  - eapply perm_trans; [apply TimelineSpec.sortByTime_perm|].
    eapply perm_trans; [exact Plane|].
    apply Permutation_sym, TimelineSpec.sortByTime_perm.
Qed.

Lemma layout_ignores_list_order_witness :
  organizeCommandsIntoTracks scenarioB HeadsA
  = organizeCommandsIntoTracks (rev scenarioB) HeadsA.
Proof.
  apply (layout_ignores_list_order scenarioB (rev scenarioB) HeadsA).
  - apply Permutation_rev.
  - repeat constructor; simpl; intuition discriminate.
  - intros a b Ha Hb Hab. simpl in Ha, Hb.
    destruct Ha as [<- | [<- | [<- | []]]]; destruct Hb as [<- | [<- | [<- | []]]];
      try reflexivity; discriminate Hab.
Defined.

End TimelineExtra.

(** * Properties of the command list, the keyboard and the zoom *)
Module MusicTimelineSpec.
Import Timeline MusicTimeline.

Lemma filter_sorted {A : Type} (R : A -> A -> Prop) (f : A -> bool) (l : list A) :
  StronglySorted R l -> StronglySorted R (filter f l).
Proof.
  induction 1 as [|a l Hl IH Ha]; simpl; [constructor|].
  destruct (f a); [|exact IH].
  constructor; [exact IH|].
  apply Forall_forall. intros x Hx. apply filter_In in Hx.
  rewrite Forall_forall in Ha. apply Ha. apply Hx.
Qed.

(** The time-only update issued by a drag is the general update with only
    the time present. *)
Lemma drag_update_is_updateCommand
    (commands : list StacyCommand) (commandId : string) (t : Q) :
  Timeline.updateCommand commands commandId t
  = MusicTimeline.updateCommand commands commandId
      {| newId := None; newTime := Some t; newType := None; newParameters := None |}.
Proof. reflexivity. Qed.

(** X13: the command list stays in time order under any sequence of
    additions, updates, deletions and command imports. *)
Theorem edits_keep_commands_sorted (edits : list Edit) (commands : list StacyCommand) :
  StronglySorted byTime commands ->
  StronglySorted byTime (fold_left applyEdit edits commands).
Proof.
  revert commands. induction edits as [|e edits IH]; intros commands Hs; [exact Hs|].
  simpl. apply IH. destruct e; simpl.
  - apply TimelineSpec.sortByTime_sorted.
  - apply TimelineSpec.sortByTime_sorted.
  - apply filter_sorted. exact Hs.
  - apply TimelineSpec.sortByTime_sorted.
Qed.

Lemma edits_keep_commands_sorted_witness :
  StronglySorted byTime
    (fold_left applyEdit [Add 1700000000000 7 panDraft; Add 1700000000500 3 panDraft;
                          Delete "1700000000000"] []).
Proof.
  apply (edits_keep_commands_sorted _ []). constructor.
Defined.

Lemma addCommand_perm
    (commands : list StacyCommand) (now : Z) (currentTime : Q) (command : CommandDraft) :
  Permutation (addCommand commands now currentTime command)
    ({| id := dateString now; time := currentTime; type := draftType command;
        parameters := draftParameters command |} :: commands).
Proof.
  unfold addCommand.
  eapply perm_trans; [apply TimelineSpec.sortByTime_perm|].
  apply Permutation_sym. apply Permutation_cons_append.
Qed.

Lemma deleteCommand_In
    (commands : list StacyCommand) (selected : option StacyCommand) (commandId : string)
    (c : StacyCommand) :
  In c (fst (deleteCommand commands selected commandId))
  <-> In c commands /\ id c <> commandId.
Proof.
  unfold deleteCommand. cbn [fst]. rewrite filter_In, negb_true_iff, String.eqb_neq.
  reflexivity.
Qed.

(** X14: adding a command keeps all the commands there were and adds one,
    at the current playback time, with the type and parameters given and
    the time stamp as id; importing commands keeps all the commands of both
    lists. *)
Theorem addCommand_adds_one
    (commands imported : list StacyCommand) (now : Z) (currentTime : Q)
    (command : CommandDraft) :
  Permutation (addCommand commands now currentTime command)
    ({| id := dateString now; time := currentTime; type := draftType command;
        parameters := draftParameters command |} :: commands)
  /\ length (addCommand commands now currentTime command) = S (length commands)
  /\ Permutation (handleImportCommands commands imported) (commands ++ imported).
Proof.
  pose proof (addCommand_perm commands now currentTime command) as H.
  split; [exact H|]. split.
  - rewrite (Permutation_length H). reflexivity.
  - apply TimelineSpec.sortByTime_perm.
Qed.

(** Deleting an id removes exactly the commands with that id: the
    others stay, in their order; nothing changes when no command has the
    id; the selection is dropped exactly when it has the id. *)
Theorem deleteCommand_removes_id
    (commands : list StacyCommand) (selected : option StacyCommand) (commandId : string) :
  let result := fst (deleteCommand commands selected commandId) in
  (forall c, In c result <-> In c commands /\ id c <> commandId)
  /\ ((forall c, In c commands -> id c <> commandId) -> result = commands)
  /\ (length result <= length commands)%nat
  /\ (forall sel, selected = Some sel ->
        snd (deleteCommand commands selected commandId)
        = if String.eqb (id sel) commandId then None else Some sel).
Proof.
  intro result. unfold result, deleteCommand. cbn [fst snd].
  split; [|split; [|split]].
  - intro c. apply (deleteCommand_In commands selected commandId c).
  - intro H. induction commands as [|c rest IH]; [reflexivity|].
    simpl. rewrite (proj2 (String.eqb_neq _ _) (H c (or_introl eq_refl))). simpl.
    f_equal. apply IH. intros c' Hc'. apply H. right. exact Hc'.
  - apply filter_length_le.
  - intros sel ->. reflexivity.
Qed.

Lemma deleteCommand_removes_id_witness :
  fst (deleteCommand scenarioB None "zzz") = scenarioB.
Proof.
  apply (proj1 (proj2 (deleteCommand_removes_id scenarioB None "zzz"))).
  intros c Hc. simpl in Hc.
  destruct Hc as [<- | [<- | [<- | []]]]; discriminate.
Defined.

Lemma dateString_inj (a b : Z) : dateString a = dateString b -> a = b.
Proof.
  unfold dateString. intro H.
  assert (Hparse : forall z, NilZero.int_of_string (NilZero.string_of_int (Z.to_int z))
                             = Some (Z.to_int z)).
  { intro z. apply NilZero.isi; destruct z; simpl; try discriminate;
      intro E; injection E as E; revert E; apply DecimalPos.Unsigned.to_uint_nonnil. }
  apply DecimalZ.to_int_inj.
  pose proof (Hparse a) as Ha. rewrite H, Hparse in Ha. injection Ha as Ha. symmetry. exact Ha.
Qed.

(** X15: the id of an added command is its time stamp: commands added at
    different milliseconds have different ids, commands added in the same
    millisecond share one, and deleting that id removes them (with any
    other command of that id) and keeps every command with another id. *)
Theorem ids_follow_time_stamps
    (commands : list StacyCommand) (now now' : Z) (t t' : Q) (d d' : CommandDraft) :
  (dateString now = dateString now' <-> now = now')
  /\ (forall c,
        In c (fst (deleteCommand (addCommand (addCommand commands now t d) now t' d')
                     None (dateString now)))
        <-> In c commands /\ id c <> dateString now).
Proof.
  split.
  - split; [apply dateString_inj | intros ->; reflexivity].
  - intro c. rewrite deleteCommand_In.
    pose proof (addCommand_perm (addCommand commands now t d) now t' d') as P2.
    pose proof (addCommand_perm commands now t d) as P1.
    split.
    + intros [Hin Hid]. split; [|exact Hid].
      apply (Permutation_in _ P2) in Hin. destruct Hin as [<- | Hin]; [contradiction Hid; reflexivity|].
      apply (Permutation_in _ P1) in Hin. destruct Hin as [<- | Hin]; [contradiction Hid; reflexivity|].
      exact Hin.
    + intros [Hin Hid]. split; [|exact Hid].
      apply (Permutation_in _ (Permutation_sym P2)). right.
      apply (Permutation_in _ (Permutation_sym P1)). right. exact Hin.
Qed.

(** X16: an update changes the commands with the given id and no other:
    the list keeps its length, every command with another id is still
    there, and every command of the result is either such a command or a
    command of that id with the updates applied. *)
Theorem updateCommand_touches_only_id
    (commands : list StacyCommand) (commandId : string) (updates : CommandUpdates) :
  let result := MusicTimeline.updateCommand commands commandId updates in
  length result = length commands
  /\ (forall c, In c commands -> id c <> commandId -> In c result)
  /\ (forall c, In c result ->
        (In c commands /\ id c <> commandId)
        \/ exists c0, In c0 commands /\ id c0 = commandId /\ c = applyUpdates c0 updates).
Proof.
  intro result. unfold result, MusicTimeline.updateCommand.
  set (f := fun cmd => if String.eqb (id cmd) commandId then applyUpdates cmd updates else cmd).
  pose proof (TimelineSpec.sortByTime_perm (map f commands)) as P.
  split; [|split].
  - rewrite (Permutation_length P). apply length_map.
  - intros c Hin Hid. apply (Permutation_in _ (Permutation_sym P)).
    apply in_map_iff. exists c. split; [|exact Hin].
    unfold f. rewrite (proj2 (String.eqb_neq _ _) Hid). reflexivity.
  - intros c Hin. apply (Permutation_in _ P) in Hin.
    apply in_map_iff in Hin. destruct Hin as (c0 & Hf & Hin0).
    unfold f in Hf. destruct (String.eqb (id c0) commandId) eqn:E.
    + right. exists c0. apply String.eqb_eq in E. auto.
    + left. subst c. apply String.eqb_neq in E. auto.
Qed.

Lemma handleKeyPress_in_range (duration : Q) (inInput : bool) (key : Key) (st : Playback) :
  0 <= duration -> 0 <= currentTime st <= duration ->
  0 <= currentTime (handleKeyPress duration inInput key st) <= duration.
Proof.
  intros Hd [H0 H1]. unfold handleKeyPress.
  destruct inInput; [split; assumption|].
  destruct key as [| |shiftKey|shiftKey|]; cbn [currentTime]; try (split; assumption).
  - split; lra.
  - split; [apply Q.le_max_l|].
    apply Q.max_lub; [exact Hd|]. destruct shiftKey; lra.
  - split; [|apply Q.le_min_l].
    apply Q.min_glb; [exact Hd|]. destruct shiftKey; lra.
Qed.

(** X17: with the playback time inside [0, duration], no sequence of key
    presses (Space, Home, arrows with or without Shift) takes it outside. *)
Theorem keyboard_keeps_time_in_range
    (duration : Q) (keys : list (bool * Key)) (st : Playback) :
  0 <= duration -> 0 <= currentTime st <= duration ->
  0 <= currentTime (pressKeys duration keys st) <= duration.
Proof.
  intro Hd. unfold pressKeys. revert st.
  induction keys as [|k keys IH]; intros st Hst; [exact Hst|].
  simpl. apply IH. apply handleKeyPress_in_range; assumption.
Qed.

Lemma keyboard_keeps_time_in_range_witness :
  0 <= currentTime (pressKeys 10 [(false, ArrowRight false); (false, ArrowRight true);
                                  (false, ArrowLeft false); (true, Home)]
                      {| currentTime := 19 # 2; isPlaying := false |}) <= 10.
Proof.
  apply (keyboard_keeps_time_in_range 10); [discriminate | split; discriminate].
Defined.

Lemma pressZoom_in_range (zoom : Q) (b : ZoomButton) :
  1 # 10 <= zoom <= 4 -> 1 # 10 <= pressZoom zoom b <= 4.
Proof.
  intros [H0 H1].
  assert (Ht : zoom / (3 # 2) == zoom * (2 # 3)) by field.
  assert (Hw : zoom / (6 # 5) == zoom * (5 # 6)) by field.
  destruct b; cbn [pressZoom];
    unfold Timeline.zoomIn, Timeline.zoomOut, AudioPlayer.zoomIn, AudioPlayer.zoomOut.
  - split; [apply Q.min_glb; lra | apply Q.le_min_l].
  - split; [apply Q.le_max_l | apply Q.max_lub; [lra | rewrite Ht; lra]].
  - split; [apply Q.min_glb; lra | apply Q.le_min_l].
  - split; [apply Q.le_max_l | apply Q.max_lub; [lra | rewrite Hw; lra]].
  - split; lra.
Qed.

(** X18: the zoom buttons of the timeline (factor 1.5) and of the waveform
    (factor 1.2), pressed in any order, keep the zoom between 0.1 and 4. *)
Theorem zoom_stays_in_range (buttons : list ZoomButton) (zoom : Q) :
  1 # 10 <= zoom <= 4 -> 1 # 10 <= pressZooms buttons zoom <= 4.
Proof.
  unfold pressZooms. revert zoom.
  induction buttons as [|b buttons IH]; intros zoom Hz; [exact Hz|].
  simpl. apply IH. apply pressZoom_in_range. exact Hz.
Qed.

Lemma zoom_stays_in_range_witness :
  1 # 10 <= pressZooms [TimelineZoomIn; TimelineZoomIn; WaveformZoomIn; TimelineZoomIn;
                        WaveformZoomOut] 1 <= 4.
Proof.
  apply (zoom_stays_in_range _ 1). split; discriminate.
Defined.

Lemma ids_follow_time_stamps_witness : 1700000000000%Z = 1700000000000%Z.
Proof.
  apply (proj1 (proj1 (ids_follow_time_stamps [] 1700000000000 1700000000000 0 0
                         panDraft panDraft))).
  reflexivity.
Defined.

Lemma updateCommand_touches_only_id_witness :
  In (plainCommand "c" 2 On)
     (MusicTimeline.updateCommand scenarioB "a"
        {| newId := None; newTime := Some 3; newType := None; newParameters := None |}).
Proof.
  apply (proj1 (proj2 (updateCommand_touches_only_id scenarioB "a"
                         {| newId := None; newTime := Some 3; newType := None;
                            newParameters := None |}))).
  - right. right. left. reflexivity.
  - discriminate.
Defined.

End MusicTimelineSpec.

(** * Further properties of the audio player *)
Module AudioPlayerExtra.
Import AudioPlayer.

Section MoreBeats.
Variable sqrt : Q -> Q.
Variable audioBuffer : AudioBuffer.

Lemma previousEnergy_S (n : nat) :
  previousEnergy (runLoop sqrt audioBuffer (S n))
  = blockEnergy sqrt (channelData audioBuffer) (blockLength audioBuffer) n * (7 # 10)
    + previousEnergy (runLoop sqrt audioBuffer n) * (3 # 10).
Proof. rewrite AudioPlayerSpec.runLoop_S. reflexivity. Qed.

Lemma previousEnergy_nonneg (n : nat) :
  (forall x, 0 <= sqrt x) -> 0 <= previousEnergy (runLoop sqrt audioBuffer n).
Proof.
  intro Hs. induction n as [|n IH]; [simpl; lra|].
  rewrite previousEnergy_S.
  pose proof (Hs (snd (blockSums (channelData audioBuffer)
                         (blockLength audioBuffer * n)
                         (Nat.min (blockLength audioBuffer * n + blockLength audioBuffer)
                                  (length (channelData audioBuffer))))
                  / ofNat (Nat.min (blockLength audioBuffer * n + blockLength audioBuffer)
                                   (length (channelData audioBuffer))
                           - blockLength audioBuffer * n))) as He.
  unfold blockEnergy. cbv zeta. lra.
Qed.

(** Every beat of the first [n] blocks was pushed by one of them. *)
Lemma beats_emitted (n : nat) :
  Forall (fun b => exists i, (i < n)%nat /\ emittedAt sqrt audioBuffer i b)
         (beats (runLoop sqrt audioBuffer n)).
Proof.
  induction n as [|n IH]; [constructor|].
  rewrite AudioPlayerSpec.beats_runLoop_S.
  assert (Hold : Forall (fun b => exists i, (i < S n)%nat /\ emittedAt sqrt audioBuffer i b)
                        (beats (runLoop sqrt audioBuffer n))).
  { eapply Forall_impl; [|exact IH].
    intros b (i & Hi & Hb). exists i. split; [lia | exact Hb]. }
  destruct (Qltb (previousEnergy (runLoop sqrt audioBuffer n) * beatThreshold)
                 (blockEnergy sqrt (channelData audioBuffer) (blockLength audioBuffer) n)
            && Qltb (1 # 10)
                 (blockEnergy sqrt (channelData audioBuffer) (blockLength audioBuffer) n))
    eqn:E.
  - apply andb_true_iff in E. destruct E as [E1 E2].
    apply Qltb_true in E1. apply Qltb_true in E2.
    apply Forall_app. split; [exact Hold|].
    constructor; [|constructor].
    exists n. split; [lia|].
    unfold emittedAt. cbn [time strength]. repeat split; assumption.
  - rewrite app_nil_r. exact Hold.
Qed.

Lemma beats_length (n : nat) : (length (beats (runLoop sqrt audioBuffer n)) <= n)%nat.
Proof.
  induction n as [|n IH]; [simpl; lia|].
  rewrite AudioPlayerSpec.beats_runLoop_S, length_app.
  destruct (Qltb _ _ && Qltb _ _); simpl; lia.
Qed.

Lemma beat_time_bounds (b : BeatData) :
  0 < duration audioBuffer ->
  In b (beats (runLoop sqrt audioBuffer (blockCount audioBuffer))) ->
  0 <= time b /\ time b < duration audioBuffer.
Proof.
  intros Hd Hb.
  pose proof (beats_emitted (blockCount audioBuffer)) as Hall.
  rewrite Forall_forall in Hall. destruct (Hall b Hb) as (i & Hi & Ht & _).
  rewrite Ht. unfold beatTime.
  assert (Hi0 : 0 <= ofNat i) by apply AudioPlayerSpec.ofNat_nonneg.
  assert (Hc : 0 < ofNat (blockCount audioBuffer)).
  { unfold ofNat. change 0 with (inject_Z 0). rewrite <- Zlt_Qlt. lia. }
  assert (Hic : ofNat i < ofNat (blockCount audioBuffer)).
  { unfold ofNat. rewrite <- Zlt_Qlt. lia. }
  assert (Hfrac0 : 0 <= ofNat i / ofNat (blockCount audioBuffer)).
  { apply Qle_shift_div_l; [exact Hc | lra]. }
  assert (Hfrac1 : ofNat i / ofNat (blockCount audioBuffer) < 1).
  { apply Qlt_shift_div_r; [exact Hc | lra]. }
  split.
  - apply Qmult_le_0_compat; lra.
  - setoid_replace (duration audioBuffer) with (1 * duration audioBuffer) at 2 by ring.
    apply Qmult_lt_compat_r; assumption.
Qed.

Lemma beat_strength_cases (b : BeatData) :
  (forall x, 0 <= sqrt x) ->
  In b (beats (runLoop sqrt audioBuffer (blockCount audioBuffer))) ->
  strength b = Infinity \/ exists r, strength b = Finite r /\ 13 # 10 < r.
Proof.
  intros Hs Hb.
  pose proof (beats_emitted (blockCount audioBuffer)) as Hall.
  rewrite Forall_forall in Hall. destruct (Hall b Hb) as (i & Hi & _ & Hstr & Hratio & _).
  pose proof (previousEnergy_nonneg i Hs) as Hp.
  rewrite Hstr. unfold divide.
  destruct (Qeq_bool (previousEnergy (runLoop sqrt audioBuffer i)) 0) eqn:E; [left; reflexivity|].
  right. eexists. split; [reflexivity|].
  assert (Hpos : 0 < previousEnergy (runLoop sqrt audioBuffer i)).
  { destruct (Qlt_le_dec 0 (previousEnergy (runLoop sqrt audioBuffer i))) as [H | H]; [exact H|].
    assert (Hz : previousEnergy (runLoop sqrt audioBuffer i) == 0) by lra.
    apply Qeq_bool_iff in Hz. congruence. }
  apply Qlt_shift_div_l; [exact Hpos|]. unfold beatThreshold in Hratio. lra.
Qed.

(** X19: there are at most as many beats as blocks, 1500 at most, and on a
    track of positive duration every beat lies at a time in
    [0, duration). *)
Theorem beats_within_duration :
  0 < duration audioBuffer ->
  let found := snd (analyse sqrt audioBuffer) in
  (length found <= blockCount audioBuffer)%nat
  /\ (length found <= 1500)%nat
  /\ forall b, In b found -> 0 <= time b /\ time b < duration audioBuffer.
Proof.
  intros Hd found. unfold found, analyse. cbn [snd].
  pose proof (beats_length (blockCount audioBuffer)) as Hlen.
  pose proof (AudioPlayerSpec.blockCount_le_1500 audioBuffer) as Hmax.
  split; [exact Hlen|]. split; [lia|].
  intros b Hb. apply beat_time_bounds; assumption.
Qed.

(** X20: when the square root is never negative, the smoothed energy is
    never negative, so the strength of a beat is either infinite (the
    smoothed energy was exactly 0) or a finite ratio above 1.3. *)
Theorem beat_strength_above_threshold :
  (forall x, 0 <= sqrt x) ->
  forall b, In b (snd (analyse sqrt audioBuffer)) ->
    strength b = Infinity \/ exists r, strength b = Finite r /\ 13 # 10 < r.
Proof.
  intros Hs b Hb. apply beat_strength_cases; assumption.
Qed.

Lemma beats_prefix (n m : nat) :
  exists rest,
    beats (runLoop sqrt audioBuffer (n + m)) = beats (runLoop sqrt audioBuffer n) ++ rest.
Proof.
  induction m as [|m (rest & IH)].
  - exists []. rewrite Nat.add_0_r, app_nil_r. reflexivity.
  - rewrite Nat.add_succ_r, AudioPlayerSpec.beats_runLoop_S, IH, <- app_assoc.
    eexists. reflexivity.
Qed.

(** X21: the smoothed energy starts at 0, so a first block whose energy
    exceeds 0.1 always gives the first beat of the list, at time 0 and of
    infinite strength. *)
Theorem loud_first_block_gives_infinite_beat :
  (1 <= blockCount audioBuffer)%nat ->
  1 # 10 < blockEnergy sqrt (channelData audioBuffer) (blockLength audioBuffer) 0 ->
  exists t rest,
    snd (analyse sqrt audioBuffer) = {| time := t; strength := Infinity |} :: rest
    /\ t == 0.
Proof.
  intros Hc He. unfold analyse. cbn [snd].
  destruct (beats_prefix 1 (blockCount audioBuffer - 1)) as (rest & Hrest).
  replace (1 + (blockCount audioBuffer - 1))%nat with (blockCount audioBuffer) in Hrest by lia.
  rewrite Hrest, AudioPlayerSpec.beats_runLoop_S.
  change (previousEnergy (runLoop sqrt audioBuffer 0)) with 0.
  change (beats (runLoop sqrt audioBuffer 0)) with (@nil BeatData).
  assert (H1 : Qltb (0 * beatThreshold)
                 (blockEnergy sqrt (channelData audioBuffer) (blockLength audioBuffer) 0) = true).
  { apply Qltb_true. unfold beatThreshold. lra. }
  rewrite H1, (proj2 (Qltb_true _ _) He). cbn [andb app].
  eexists. eexists. split; [reflexivity|].
  unfold beatTime, ofNat. simpl. unfold Qdiv. ring.
Qed.
End MoreBeats.

Lemma beats_within_duration_witness :
  (length (snd (analyse sqrtUp threeBlocks)) <= 1500)%nat.
Proof.
  apply (proj1 (proj2 (beats_within_duration sqrtUp threeBlocks eq_refl))).
Defined.

Lemma sqrtUp_nonneg (x : Q) : 0 <= sqrtUp x.
Proof.
  unfold sqrtUp, Qle. simpl. rewrite Z.mul_1_r. apply Z.sqrt_up_nonneg.
Qed.

Lemma beat_strength_above_threshold_witness :
  Forall (fun b => strength b = Infinity \/ exists r, strength b = Finite r /\ 13 # 10 < r)
         (snd (analyse sqrtUp threeBlocks)).
Proof.
  apply Forall_forall. intros b Hb.
  apply (beat_strength_above_threshold sqrtUp threeBlocks sqrtUp_nonneg b Hb).
Defined.

Lemma loud_first_block_gives_infinite_beat_witness :
  exists t rest,
    snd (analyse sqrtUp loudStart) = {| time := t; strength := Infinity |} :: rest
    /\ t == 0.
Proof.
  apply (loud_first_block_gives_infinite_beat sqrtUp loudStart).
  - vm_compute. lia.
  - vm_compute. reflexivity.
Defined.

(** ** The blocks of the analysis *)

(** X22: from 1024 samples on, every block has at least 1024 samples, the
    blocks lie inside the buffer, and fewer samples than there are blocks
    (so fewer than 1500) are left after the last block. *)
Theorem blocks_cover_buffer (audioBuffer : AudioBuffer) :
  let n := length (channelData audioBuffer) in
  let covered := (blockCount audioBuffer * blockLength audioBuffer)%nat in
  (1024 <= n)%nat ->
  (1024 <= blockLength audioBuffer)%nat
  /\ (covered <= n)%nat
  /\ (n - covered < blockCount audioBuffer)%nat
  /\ (n - covered < 1500)%nat.
Proof.
  intros n covered Hn.
  pose proof (AudioPlayerSpec.blockCount_le_1500 audioBuffer) as Hmax.
  assert (Hc : (1 <= blockCount audioBuffer)%nat).
  { unfold blockCount. fold n.
    assert (1 <= n / 1024)%nat by (apply Nat.div_le_lower_bound; lia). lia. }
  assert (Hq : (blockCount audioBuffer * 1024 <= n)%nat).
  { apply Nat.le_trans with (n / 1024 * 1024)%nat.
    - unfold blockCount. fold n. nia.
    - rewrite Nat.mul_comm. apply Nat.Div0.mul_div_le. }
  assert (Hmod : (n = blockCount audioBuffer * blockLength audioBuffer
                      + n mod blockCount audioBuffer)%nat).
  { unfold blockLength. fold n. apply Nat.div_mod_eq. }
  pose proof (Nat.mod_upper_bound n (blockCount audioBuffer)) as Hlt.
  split; [|unfold covered; lia].
  unfold blockLength. fold n. apply Nat.div_le_lower_bound; lia.
Qed.

Lemma blocks_cover_buffer_witness :
  (length (channelData lateClick)
   - blockCount lateClick * blockLength lateClick < blockCount lateClick)%nat.
Proof.
  apply (blocks_cover_buffer lateClick).
  unfold lateClick. cbn [channelData]. rewrite length_app, repeat_length. simpl. lia.
Defined.

Lemma fold_left_ext_in {A B : Type} (f g : A -> B -> A) (l : list B) (a : A) :
  (forall x acc, In x l -> f acc x = g acc x) -> fold_left f l a = fold_left g l a.
Proof.
  revert a. induction l as [|x l IH]; intros a H; [reflexivity|].
  simpl. rewrite (H x a (or_introl eq_refl)). apply IH.
  intros y acc Hy. apply H. right. exact Hy.
Qed.

Lemma blockSums_ext (raw1 raw2 : list Q) (blockStart blockEnd : nat) :
  (forall j, (blockStart <= j < blockEnd)%nat -> nth j raw1 0 = nth j raw2 0) ->
  blockSums raw1 blockStart blockEnd = blockSums raw2 blockStart blockEnd.
Proof.
  intro H. unfold blockSums. apply fold_left_ext_in.
  intros j acc Hj. apply in_seq in Hj. unfold sumStep. rewrite (H j) by lia. reflexivity.
Qed.

(** X23: the samples after the last block are never read: two buffers of
    the same length and duration that agree on the samples covered by the
    blocks have the same waveform and the same beats. *)
Theorem trailing_samples_ignored (sqrt : Q -> Q) (b1 b2 : AudioBuffer) :
  length (channelData b1) = length (channelData b2) ->
  duration b1 = duration b2 ->
  (forall j, (j < blockCount b1 * blockLength b1)%nat ->
             nth j (channelData b1) 0 = nth j (channelData b2) 0) ->
  analyse sqrt b1 = analyse sqrt b2.
Proof.
  intros Hlen Hdur Hsame.
  assert (Hc : blockCount b2 = blockCount b1) by (unfold blockCount; rewrite Hlen; reflexivity).
  assert (Hb : blockLength b2 = blockLength b1)
    by (unfold blockLength; rewrite Hc, Hlen; reflexivity).
  assert (Hsums : forall i, (i < blockCount b1)%nat ->
            blockSums (channelData b1) (blockLength b1 * i)
              (Nat.min (blockLength b1 * i + blockLength b1) (length (channelData b1)))
            = blockSums (channelData b2) (blockLength b1 * i)
                (Nat.min (blockLength b1 * i + blockLength b1) (length (channelData b1)))).
  { intros i Hi. apply blockSums_ext. intros j Hj. apply Hsame. nia. }
  assert (Hbody : forall i st, (i < blockCount b1)%nat ->
            loopBody sqrt b1 (blockCount b1) (blockLength b1) st i
            = loopBody sqrt b2 (blockCount b1) (blockLength b1) st i).
  { intros i st Hi. unfold loopBody, blockAmplitude, blockEnergy. cbv zeta.
    rewrite <- Hlen, <- Hdur, <- (Hsums i Hi). reflexivity. }
  assert (Hrun : runLoop sqrt b1 (blockCount b1) = runLoop sqrt b2 (blockCount b1)).
  { unfold runLoop. rewrite Hc, Hb. apply fold_left_ext_in.
    intros i st Hi. apply in_seq in Hi. apply Hbody. lia. }
  unfold analyse. rewrite Hc, Hrun. reflexivity.
Qed.

Lemma trailing_samples_ignored_witness :
  analyse sqrtUp lateClick = analyse sqrtUp lateClick'.
Proof.
  apply (trailing_samples_ignored sqrtUp lateClick lateClick').
  - unfold lateClick, lateClick'. cbn [channelData]. rewrite !length_app, !repeat_length.
    reflexivity.
  - reflexivity.
  - intros j Hj.
    assert (Hlt : (j < 2048)%nat) by (vm_compute in Hj; lia).
    unfold lateClick, lateClick'. cbn [channelData].
    rewrite !app_nth1 by (rewrite repeat_length; exact Hlt). reflexivity.
Defined.

(** ** Beat navigation *)

Lemma find_none_existsb {A : Type} (f : A -> bool) (l : list A) :
  find f l = None <-> existsb f l = false.
Proof.
  induction l as [|a l IH]; simpl; [tauto|].
  destruct (f a); simpl; [split; discriminate | exact IH].
Qed.

Lemma filter_nil_existsb {A : Type} (f : A -> bool) (l : list A) :
  filter f l = [] <-> existsb f l = false.
Proof.
  induction l as [|a l IH]; simpl; [tauto|].
  destruct (f a); simpl; [split; discriminate | exact IH].
Qed.

Lemma lastOf_none {A : Type} (l : list A) : lastOf l = None <-> l = [].
Proof.
  split; [|intros ->; reflexivity].
  destruct l as [|a l]; [reflexivity|].
  intro H. destruct (lastOf_nonempty (a :: l)) as [x Hx]; [discriminate|]. congruence.
Qed.

Lemma find_sorted_first (f : BeatData -> bool) (l : list BeatData) (b : BeatData) :
  StronglySorted beatOrder l -> find f l = Some b ->
  In b l /\ f b = true /\ forall b', In b' l -> f b' = true -> time b <= time b'.
Proof.
  induction 1 as [|a l Hl IH Ha]; simpl; [discriminate|].
  destruct (f a) eqn:E.
  - intro H. injection H as <-. split; [left; reflexivity|]. split; [exact E|].
    intros b' [<- | Hb'] _; [lra|].
    rewrite Forall_forall in Ha. apply Ha. exact Hb'.
  - intro H. destruct (IH H) as (Hin & Hf & Hmin).
    split; [right; exact Hin|]. split; [exact Hf|].
    intros b' [<- | Hb'] Hfb'; [congruence | apply Hmin; assumption].
Qed.

(** X24: with the beats in ascending order, [goToNextBeat] jumps to the
    earliest beat more than 0.1 s after the current time and resumes
    auto-follow; it does so exactly when [hasNextBeat] holds, and otherwise
    changes nothing. *)
Theorem next_beat_is_nearest
    (now : Z) (beatData : list BeatData) (currentTime : Q) (s : ScrollState) :
  StronglySorted beatOrder beatData ->
  (hasNextBeat beatData currentTime = true ->
     exists b,
       goToNextBeat now beatData currentTime s
       = (Some (time b), resetEffect now s false (lastWaveformScrollTime s))
       /\ In b beatData
       /\ currentTime + (1 # 10) < time b
       /\ forall b', In b' beatData -> currentTime + (1 # 10) < time b' -> time b <= time b')
  /\ (hasNextBeat beatData currentTime = false ->
        goToNextBeat now beatData currentTime s = (None, s)).
Proof.
  intro Hs. unfold hasNextBeat, goToNextBeat. split; intro H.
  - destruct (find (fun beat => Qltb (currentTime + (1 # 10)) (time beat)) beatData)
      as [b|] eqn:E; [|apply find_none_existsb in E; congruence].
    destruct (find_sorted_first _ _ _ Hs E) as (Hin & Hf & Hmin).
    exists b. destruct beatData as [|b0 rest]; [contradiction|].
    split; [reflexivity|]. split; [exact Hin|].
    split; [apply Qltb_true; exact Hf|].
    intros b' Hb' Hlt. apply Hmin; [exact Hb' | apply Qltb_true; exact Hlt].
  - apply find_none_existsb in H. rewrite H. destruct beatData; reflexivity.
Qed.

(** X25: with the beats in ascending order and at least one beat,
    [goToPreviousBeat] always jumps and resumes auto-follow: to the latest
    beat more than 0.1 s before the current time when [hasPreviousBeat]
    holds, and to time 0 otherwise; without any beat it changes nothing. *)
Theorem previous_beat_is_nearest
    (now : Z) (beatData : list BeatData) (currentTime : Q) (s : ScrollState) :
  StronglySorted beatOrder beatData ->
  (beatData <> [] -> hasPreviousBeat beatData currentTime = true ->
     exists b,
       goToPreviousBeat now beatData currentTime s
       = (Some (time b), resetEffect now s false (lastWaveformScrollTime s))
       /\ In b beatData
       /\ time b < currentTime - (1 # 10)
       /\ forall b', In b' beatData -> time b' < currentTime - (1 # 10) -> time b' <= time b)
  /\ (beatData <> [] -> hasPreviousBeat beatData currentTime = false ->
        goToPreviousBeat now beatData currentTime s
        = (Some 0, resetEffect now s false (lastWaveformScrollTime s)))
  /\ (beatData = [] -> goToPreviousBeat now beatData currentTime s = (None, s)).
Proof.
  intro Hs. unfold hasPreviousBeat, goToPreviousBeat.
  set (f := fun beat => Qltb (time beat) (currentTime - (1 # 10))).
  split; [|split].
  - intros Hne H.
    destruct (lastOf (filter f beatData)) as [b|] eqn:E.
    + pose proof (lastOf_In _ _ E) as Hin. apply filter_In in Hin. destruct Hin as [Hin Hf].
      exists b. destruct beatData as [|b0 rest]; [contradiction|].
      split; [reflexivity|]. split; [exact Hin|].
      split; [apply Qltb_true; exact Hf|].
      intros b' Hb' Hlt.
      assert (Hfb' : In b' (filter f (b0 :: rest))).
      { apply filter_In. split; [exact Hb' | apply Qltb_true; exact Hlt]. }
      pose proof (sorted_last beatOrder _ _
                    (MusicTimelineSpec.filter_sorted beatOrder f _ Hs) E) as Hlast.
      rewrite Forall_forall in Hlast. destruct (Hlast b' Hfb') as [-> | Hle]; [lra | exact Hle].
    + apply lastOf_none in E. apply filter_nil_existsb in E. congruence.
  - intros Hne H. apply filter_nil_existsb in H. rewrite H.
    destruct beatData; [contradiction | reflexivity].
  - intros ->. reflexivity.
Qed.

Lemma threeBlocks_beats_sorted : StronglySorted beatOrder (snd (analyse sqrtUp threeBlocks)).
Proof.
  apply (AudioPlayerSpec.beats_invariant sqrtUp threeBlocks (blockCount threeBlocks)).
  vm_compute. discriminate.
Qed.

Lemma next_beat_is_nearest_witness :
  goToNextBeat 0 (snd (analyse sqrtUp threeBlocks)) (5 # 2) initialScrollState
  = (None, initialScrollState).
Proof.
  apply (proj2 (next_beat_is_nearest 0 (snd (analyse sqrtUp threeBlocks)) (5 # 2)
                  initialScrollState threeBlocks_beats_sorted)).
  vm_compute. reflexivity.
Defined.

Lemma previous_beat_is_nearest_witness :
  goToPreviousBeat 0 (snd (analyse sqrtUp threeBlocks)) (1 # 2) initialScrollState
  = (Some 0, resetEffect 0 initialScrollState false 0).
Proof.
  apply (proj1 (proj2 (previous_beat_is_nearest 0 (snd (analyse sqrtUp threeBlocks)) (1 # 2)
                         initialScrollState threeBlocks_beats_sorted))).
  - vm_compute. discriminate.
  - vm_compute. reflexivity.
Defined.

(** ** Throttled drawing *)

(** X26: whatever the times of the calls, [drawThrottled] draws only at
    times of calls, and each draw comes more than 33 ms after the one
    before it (and after the initial [lastDrawTime]). *)
Theorem draws_are_33ms_apart (calls : list Z) (last : Z) :
  StronglySorted (fun a b => (a + 33 < b)%Z) (last :: drawTimes calls last)
  /\ forall t, In t (drawTimes calls last) -> In t calls.
Proof.
  split.
  - revert last. induction calls as [|now rest IH]; intro last; simpl.
    + constructor; constructor.
    + unfold drawThrottled. destruct (now - last >? 33)%Z eqn:E.
      * specialize (IH now). inversion IH as [|? ? Hs Hf]; subst.
        constructor; [exact IH|].
        rewrite Z.gtb_ltb in E. apply Z.ltb_lt in E.
        constructor; [lia|].
        eapply Forall_impl; [|exact Hf]. simpl. intros x Hx. lia.
      * apply IH.
  - revert last. induction calls as [|now rest IH]; intros last t; simpl; [tauto|].
    unfold drawThrottled. destruct (now - last >? 33)%Z.
    + intros [<- | H]; [left; reflexivity | right; apply (IH _ _ H)].
    + intro H. right. apply (IH _ _ H).
Qed.

(** ** Beat markers, seeking and following on the waveform *)

(** X27: when the square root is never negative and the duration shown is
    the positive duration of the decoded buffer, every beat of the analysis
    gets a marker, inside the canvas and with an opacity above 0.79 and at
    most 1. *)
Theorem beat_marker_in_canvas
    (sqrt : Q -> Q) (audioBuffer : AudioBuffer) (width : Q) (b : BeatData) :
  (forall x, 0 <= sqrt x) -> 0 < duration audioBuffer -> 0 < width ->
  In b (snd (analyse sqrt audioBuffer)) ->
  exists x alpha,
    beatMarker (duration audioBuffer) width b = Some (x, alpha)
    /\ 0 <= x /\ x < width
    /\ 79 # 100 < alpha /\ alpha <= 1.
Proof.
  intros Hs Hd Hw Hb. unfold analyse in Hb. cbn [snd] in Hb.
  destruct (beat_time_bounds sqrt audioBuffer b Hd Hb) as [Ht0 Ht1].
  unfold beatMarker.
  rewrite (proj2 (Qle_bool_iff _ _) (Qlt_le_weak _ _ Ht1)).
  eexists. eexists. split; [reflexivity|].
  assert (Hf0 : 0 <= time b / duration audioBuffer).
  { apply Qle_shift_div_l; [exact Hd | lra]. }
  assert (Hf1 : time b / duration audioBuffer < 1).
  { apply Qlt_shift_div_r; [exact Hd | lra]. }
  split; [apply Qmult_le_0_compat; lra|].
  split.
  { setoid_replace width with (1 * width) at 2 by ring.
    apply Qmult_lt_compat_r; assumption. }
  assert (Hclip : 13 # 10 < clipStrength (strength b) /\ clipStrength (strength b) <= 2).
  { destruct (beat_strength_cases sqrt audioBuffer b Hs Hb) as [-> | (r & -> & Hr)];
      cbn [clipStrength].
    - split; lra.
    - split; [apply Q.min_glb_lt; lra | apply Q.le_min_r]. }
  destruct Hclip as [Hc0 Hc1]. split; lra.
Qed.

Lemma beat_marker_in_canvas_witness :
  Forall (fun b => exists x alpha,
            beatMarker 3 7200 b = Some (x, alpha)
            /\ 0 <= x /\ x < 7200 /\ 79 # 100 < alpha /\ alpha <= 1)
         (snd (analyse sqrtUp threeBlocks)).
Proof.
  apply Forall_forall. intros b Hb.
  apply (beat_marker_in_canvas sqrtUp threeBlocks 7200 b sqrtUp_nonneg eq_refl eq_refl Hb).
Defined.

(** X28: on a loaded track a click on the waveform seeks to the time
    proportional to the clicked abscissa: the time itself for the abscissa
    of a playhead at that time, a time of [0, duration] inside the canvas,
    and, as nothing clamps it, a time after the duration to the right of
    the canvas. *)
Theorem canvas_click_seeks_linearly
    (duration zoom clientX containerLeft scrollLeft currentTime : Q) :
  0 < duration ->
  let x := clientX - containerLeft + scrollLeft in
  let width := waveformDisplayWidth duration zoom in
  exists newTime,
    handleSeekTime duration zoom true clientX containerLeft scrollLeft = Some newTime
    /\ (x == (currentTime / duration) * width -> newTime == currentTime)
    /\ (0 <= x -> x <= width -> 0 <= newTime /\ newTime <= duration)
    /\ (width < x -> duration < newTime).
Proof.
  intros Hd x width.
  assert (Hw : 800 <= width) by apply Q.le_max_l.
  unfold handleSeekTime.
  rewrite (TimelineExtra.Qeq_bool_false_of_neq duration 0) by lra.
  cbn [negb]. eexists. split; [reflexivity|]. fold x width.
  assert (Hform : x / width * duration == x * (duration / width)) by (field; lra).
  assert (Hr : 0 < duration / width) by (apply Qlt_shift_div_l; lra).
  assert (Hfull : width * (duration / width) == duration) by (field; lra).
  split; [|split].
  - intro Hx. rewrite Hx. field. split; lra.
  - intros H0 H1. rewrite Hform. split.
    + apply Qmult_le_0_compat; lra.
    + apply Qle_trans with (width * (duration / width)).
      * apply Qmult_le_compat_r; lra.
      * rewrite Hfull. lra.
  - intro H. rewrite Hform.
    apply Qle_lt_trans with (width * (duration / width)).
    + rewrite Hfull. lra.
    + apply Qmult_lt_compat_r; assumption.
Qed.

Lemma canvas_click_seeks_linearly_witness :
  exists newTime,
    handleSeekTime 120 1 true 700 100 3000 = Some newTime /\ newTime == 60.
Proof.
  destruct (canvas_click_seeks_linearly 120 1 700 100 3000 60 eq_refl)
    as (newTime & Hseek & Hplay & _).
  exists newTime. split; [exact Hseek|]. apply Hplay. reflexivity.
Defined.

(** X29: the waveform's auto-scroll asks for nothing while the user is
    scrolling, never asks for a negative position, and settles: with the
    container at the position asked for, the same playhead gives no request
    (always so when the playhead is at least half a container width into
    the waveform) or the same position again. *)
Theorem waveform_autoScroll_settles
    (isPlaying mounted : bool) (s : ScrollState)
    (duration zoom currentTime containerWidth currentScrollLeft target : Q) :
  0 < containerWidth ->
  autoScroll isPlaying s mounted duration zoom currentTime containerWidth
    currentScrollLeft = Some target ->
  isUserScrollingWaveform s = false
  /\ 0 <= target
  /\ (autoScroll isPlaying s mounted duration zoom currentTime containerWidth target = None
      \/ autoScroll isPlaying s mounted duration zoom currentTime containerWidth target
         = Some target)
  /\ (containerWidth / 2 <= (currentTime / duration) * waveformDisplayWidth duration zoom ->
      autoScroll isPlaying s mounted duration zoom currentTime containerWidth target = None).
Proof.
  intros Hw. unfold autoScroll.
  destruct (isUserScrollingWaveform s);
    [rewrite orb_true_r; cbn [orb]; discriminate|].
  destruct (negb isPlaying || false || negb mounted || Qeq_bool duration 0);
    [discriminate|].
  set (p := (currentTime / duration) * waveformDisplayWidth duration zoom).
  destruct (Qltb p (currentScrollLeft + containerWidth * (1 # 10))
            || Qltb (currentScrollLeft + containerWidth - containerWidth * (1 # 10)) p);
    [|discriminate].
  intro H. injection H as <-.
  split; [reflexivity|]. split; [apply Q.le_max_l|].
  destruct (TimelineExtra.recentred_is_stable p containerWidth Hw) as [Hfar _].
  split.
  - destruct (Qltb p (Qmax 0 (p - containerWidth / 2) + containerWidth * (1 # 10))
              || Qltb (Qmax 0 (p - containerWidth / 2) + containerWidth
                       - containerWidth * (1 # 10)) p);
      [right; reflexivity | left; reflexivity].
  - intro Hc. rewrite (Hfar Hc). reflexivity.
Qed.

Lemma waveform_autoScroll_settles_witness :
  exists target,
    autoScroll true initialScrollState true 120 1 60 1000 0 = Some target
    /\ autoScroll true initialScrollState true 120 1 60 1000 target = None.
Proof.
  eexists. split; [reflexivity|].
  refine (proj2 (proj2 (proj2
            (waveform_autoScroll_settles true true initialScrollState 120 1 60 1000 0 _
               eq_refl eq_refl))) _).
  vm_compute. discriminate.
Defined.

Lemma draws_are_33ms_apart_witness : In 100%Z [40; 60; 100]%Z.
Proof.
  apply (proj2 (draws_are_33ms_apart [40; 60; 100]%Z 0%Z) 100%Z).
  vm_compute. right. left. reflexivity.
Defined.

End AudioPlayerExtra.

